(** * The pricing calculator of [v2/script.js]

    A shallow embedding of [initPricingCalculator] and its inner function
    [calculate] (script.js, lines 241-349), and the properties of the
    quote it displays.

    Numbers.  JavaScript numbers are modelled as exact rationals ([Q])
    extended with [NaN]; the rounding error of binary64 arithmetic is not
    part of this model (module [Binary64] below evaluates the same
    function on primitive floats, and [binary64_same_display] compares
    what the two display).
    [undefined], the result of reading a property an object does not own,
    is a value of its own, and arithmetic sends it to [NaN] as [ToNumber]
    does.

    Objects.  The five rate tables are object literals; an object is the
    list of its own properties in insertion order, which is the order
    [Object.keys] enumerates them in.  Properties inherited from
    [Object.prototype] are not modelled.

    The page.  The elements behind [inputs] and [display] are taken to be
    present.  An input is represented by what [calculate] reads from it:
    the [value] of the four selects and, for the check boxes, the set of
    ids whose element is there and is checked. *)

From Stdlib Require Import QArith Qround Qabs ZArith Lia Lqa.
From Stdlib Require Import PrimFloat FloatOps SpecFloat Uint63.
From stdpp Require Import gmap strings list.

Local Open Scope string_scope.

(** ** JavaScript values and arithmetic *)

Module JS.

Inductive value : Type :=
  | Undefined
  | Num (q : Q)
  | NaN.

(** [ToNumber]: [undefined] becomes [NaN]. *)
Definition ToNumber (v : value) : value :=
  match v with
  | Undefined => NaN
  | Num q => Num q
  | NaN => NaN
  end.

Definition arith (op : Q -> Q -> Q) (a b : value) : value :=
  match ToNumber a, ToNumber b with
  | Num x, Num y => Num (op x y)
  | _, _ => NaN
  end.

(** [a + b], [a - b] and [a * b] on operands that are numbers or
    [undefined]. *)
Definition add : value -> value -> value := arith Qplus.
Definition sub : value -> value -> value := arith Qminus.
Definition mul : value -> value -> value := arith Qmult.

(** [a >= 0]: false when [a] is not a number. *)
Definition ge0 (a : value) : bool :=
  match ToNumber a with
  | Num x => Qle_bool 0 x
  | _ => false
  end.

(** [Math.round]: the nearest integer, a tie going towards +infinity. *)
Definition Math_round (a : value) : value :=
  match ToNumber a with
  | Num x => Num (inject_Z (Qfloor (x + (1 # 2))))
  | _ => NaN
  end.

(** An object literal whose property values are numbers. *)
Definition object : Type := list (string * Q).

(** [Object.keys(o)]. *)
Definition keys (o : object) : list string := map fst o.

(** The own property [k] of [o], if there is one. *)
Fixpoint own (o : object) (k : string) : option Q :=
  match o with
  | [] => None
  | (k', q) :: o' => if String.eqb k k' then Some q else own o' k
  end.

(** [o[k]]. *)
Definition get (o : object) (k : string) : value :=
  match own o k with
  | Some q => Num q
  | None => Undefined
  end.

(** An object has each key once. *)
Definition wf (o : object) : Prop := NoDup (keys o).

#[global] Instance wf_dec (o : object) : Decision (wf o).
Proof. unfold wf. apply _. Defined.

(** [v] is the number [q]. *)
Definition is_num (v : value) (q : Q) : Prop :=
  match v with
  | Num x => x == q
  | _ => False
  end.

End JS.

Import JS.

(** ** The rate tables *)

Record RateTable : Type := {
  basePrices : object;
  bathroomPrices : object;
  serviceAdjustments : object;
  frequencyDiscounts : object;
  addOnPrices : object
}.

(** The literals of lines 263-301. *)
Definition builtin : RateTable := {|
  basePrices :=
    [("studio", 69); ("1bed", 79); ("2bed", 89);
     ("3bed", 119); ("4bed", 149); ("5bed", 179)]%Q;
  bathroomPrices :=
    [("1", 0); ("1.5", 15); ("2", 30); ("2.5", 45); ("3", 60); ("4", 90)]%Q;
  serviceAdjustments :=
    [("standard", 0); ("deep", 80); ("move", 180)]%Q;
  frequencyDiscounts :=
    [("one-time", 0); ("weekly", 0.10); ("biweekly", 0.05);
     ("monthly", 0.03)]%Q;
  addOnPrices :=
    [("steamSanitize", 35); ("laundry", 25); ("windows", 30);
     ("fridge", 25); ("pets", 15); ("cabinets", 20)]%Q
|}.

(** ** The page: inputs and display *)

Module inputs.
Record t : Type := mk {
  propertyType : string;
  bathrooms : string;
  serviceType : string;
  frequency : string;
  (** the ids [key] for which [inputs[key] && inputs[key].checked] *)
  checked : gset string
}.
End inputs.

Module display.
(** What is written after the constant prefixes ['$'] and ['-$']; for
    [service] also whether the prefix ['+'] is written. *)
Record t : Type := mk {
  total : value;
  base : value;
  service : bool * value;
  frequency : value;
  addOns : value
}.

Definition set_total (v : value) (d : t) : t :=
  mk v (base d) (service d) (frequency d) (addOns d).
Definition set_base (v : value) (d : t) : t :=
  mk (total d) v (service d) (frequency d) (addOns d).
Definition set_service (v : bool * value) (d : t) : t :=
  mk (total d) (base d) v (frequency d) (addOns d).
Definition set_frequency (v : value) (d : t) : t :=
  mk (total d) (base d) (service d) v (addOns d).
Definition set_addOns (v : value) (d : t) : t :=
  mk (total d) (base d) (service d) (frequency d) v.
End display.

(** ** [calculate] *)

(** The local variables of [calculate] when line 329 has run. *)
Module locals.
Record t : Type := mk {
  total : value;
  serviceAdj : value;
  freqDiscount : value;
  addOnsTotal : value;
  discountable : value;
  discount : value
}.
End locals.

(** The callback of the [forEach] of lines 312-316. *)
Definition addOn_step (r : RateTable) (i : inputs.t)
    (addOnsTotal : value) (key : string) : value :=
  if bool_decide (key ∈ inputs.checked i)
  then add addOnsTotal (get (addOnPrices r) key)
  else addOnsTotal.

(** Lines 304-329. *)
Definition compute (r : RateTable) (i : inputs.t) : locals.t :=
  let total := get (basePrices r) (inputs.propertyType i) in
  let total := add total (get (bathroomPrices r) (inputs.bathrooms i)) in
  let serviceAdj := get (serviceAdjustments r) (inputs.serviceType i) in
  let freqDiscount := get (frequencyDiscounts r) (inputs.frequency i) in
  let addOnsTotal :=
    fold_left (addOn_step r i) (keys (addOnPrices r)) (Num 0) in
  let total := add total serviceAdj in
  let discountable := total in
  let discount := mul discountable freqDiscount in
  let total := add total addOnsTotal in
  let total := sub total discount in
  locals.mk total serviceAdj freqDiscount addOnsTotal discountable discount.

(** Lines 332-336: the five assignments to [textContent]. *)
Definition update_display (r : RateTable) (i : inputs.t) (l : locals.t)
    (d : display.t) : display.t :=
  let d := display.set_total (Math_round (locals.total l)) d in
  let d := display.set_base
    (add (get (basePrices r) (inputs.propertyType i))
         (get (bathroomPrices r) (inputs.bathrooms i))) d in
  let d := display.set_service
    (ge0 (locals.serviceAdj l), locals.serviceAdj l) d in
  let d := display.set_frequency (Math_round (locals.discount l)) d in
  display.set_addOns (locals.addOnsTotal l) d.

(** [calculate], as a function of the tables, the inputs and the display
    it overwrites. *)
Definition calculate (r : RateTable) (i : inputs.t) (d : display.t)
    : display.t :=
  update_display r i (compute r i) d.

(** How a call of a JavaScript function ends. *)
Inductive outcome (A : Type) : Type :=
  | Returns (a : A)
  | Throws (name : string) (field key : string).
Arguments Returns {A} a.
Arguments Throws {A} name field key.


(** The display before the first call. *)
Definition blank : display.t :=
  display.mk Undefined Undefined (false, Undefined) Undefined Undefined.

(** The quote of a configuration. *)
Definition quote (r : RateTable) (i : inputs.t) : display.t :=
  calculate r i blank.

(** ** Configurations the tables cover *)

(** Every key of the configuration is a key of its table. *)
Definition valid (r : RateTable) (i : inputs.t) : Prop :=
  inputs.propertyType i ∈ keys (basePrices r) ∧
  inputs.bathrooms i ∈ keys (bathroomPrices r) ∧
  inputs.serviceType i ∈ keys (serviceAdjustments r) ∧
  inputs.frequency i ∈ keys (frequencyDiscounts r) ∧
  inputs.checked i ⊆ list_to_set (keys (addOnPrices r)).

#[global] Instance valid_dec r i : Decision (valid r i).
Proof. unfold valid. apply _. Defined.

(** ** The quote as the specification words it *)

(** [rates.addOnPrice[key]] for a key of the table. *)
Definition price (o : object) (k : string) : Q := default 0%Q (own o k).

(** The sum of the prices of the keys of a list. *)
Definition sum_prices (o : object) (ks : list string) : Q :=
  foldr (λ k acc, price o k + acc)%Q 0%Q ks.

(** Step 5: the sum of [rates.addOnPrice[key]] for [key] in the set
    [selectedAddOns]. *)
Definition selected_sum (o : object) (sel : gset string) : Q :=
  sum_prices o (elements sel).

(** [z] is an integer nearest to [x]. *)
Definition nearest (x : Q) (z : Z) : Prop :=
  ∀ n : Z, (Qabs (x - inject_Z z) <= Qabs (x - inject_Z n))%Q.

(** Round half up: of two nearest integers the greater one. *)
Definition round_half_up (x : Q) (z : Z) : Prop :=
  nearest x z ∧ ∀ n : Z, nearest x n → (n <= z)%Z.

(** Round half away from zero: of two nearest integers the one of greater
    magnitude. *)
Definition round_half_away (x : Q) (z : Z) : Prop :=
  nearest x z ∧ ∀ n : Z, nearest x n → (Z.abs n <= Z.abs z)%Z.

(** ** Configurations of the specification *)

(** Scenario B. *)
Definition scenarioB : inputs.t :=
  inputs.mk "2bed" "2" "deep" "weekly" {["windows"; "pets"]}.

(** Scenario C. *)
Definition scenarioC : inputs.t :=
  inputs.mk "studio" "1" "move" "monthly" {["fridge"]}.

(** A property type [basePrices] does not have. *)
Definition mansion : inputs.t :=
  inputs.mk "mansion" "1" "standard" "one-time" ∅.

(** ** Kinds of tables, and configurations built from others *)

(** Every entry of the table satisfies [P]. *)
Definition every_price (P : Q → Prop) (o : object) : Prop :=
  Forall (λ kq, P kq.2) o.

Definition nonneg (q : Q) : Prop := (0 <= q)%Q.

Definition above_zero (q : Q) : Prop := (0 < q)%Q.

(** A discount rate: in [0, 1). *)
Definition fraction (q : Q) : Prop := (0 <= q)%Q ∧ (q < 1)%Q.

(** A whole number. *)
Definition integral (q : Q) : Prop := (q == inject_Z (Qfloor q))%Q.

#[global] Instance Qeq_decision (x y : Q) : Decision (x == y)%Q := Qeq_dec x y.
#[global] Instance Qle_decision (x y : Q) : Decision (x <= y)%Q.
Proof. destruct (Qlt_le_dec y x); [right; lra | by left]. Defined.
#[global] Instance Qlt_decision (x y : Q) : Decision (x < y)%Q.
Proof. destruct (Qlt_le_dec x y); [by left | right; lra]. Defined.
#[global] Instance nonneg_dec q : Decision (nonneg q).
Proof. unfold nonneg. apply _. Defined.
#[global] Instance above_zero_dec q : Decision (above_zero q).
Proof. unfold above_zero. apply _. Defined.
#[global] Instance fraction_dec q : Decision (fraction q).
Proof. unfold fraction. apply _. Defined.
#[global] Instance integral_dec q : Decision (integral q).
Proof. unfold integral. apply _. Defined.
#[global] Instance every_price_dec P `{∀ q, Decision (P q)} o :
  Decision (every_price P o).
Proof. unfold every_price. apply _. Defined.

(** The configuration [i] with the add-on [k] checked as well. *)
Definition check (k : string) (i : inputs.t) : inputs.t :=
  inputs.mk (inputs.propertyType i) (inputs.bathrooms i)
            (inputs.serviceType i) (inputs.frequency i)
            ({[k]} ∪ inputs.checked i).

(** The components displayed, added up: base, service adjustment and
    add-ons, less the discount. *)
Definition itemized (d : display.t) : value :=
  sub (add (add (display.base d) (snd (display.service d)))
           (display.addOns d))
      (display.frequency d).

(** By how much they exceed the total displayed. *)
Definition gap (d : display.t) : value := sub (itemized d) (display.total d).

(** The built-in tables with a studio at 65, and a configuration whose
    discount is then 6.5. *)
Definition tie_rates : RateTable := {|
  basePrices := ("studio", 65%Q) :: tail (basePrices builtin);
  bathroomPrices := bathroomPrices builtin;
  serviceAdjustments := serviceAdjustments builtin;
  frequencyDiscounts := frequencyDiscounts builtin;
  addOnPrices := addOnPrices builtin
|}.

Definition tie : inputs.t := inputs.mk "studio" "1" "standard" "weekly" ∅.

(** The gap when the add-on prices are whole numbers: the add-ons drop
    out of it. *)
Definition scalar_gap (r : RateTable)
    (propertyType bathrooms serviceType frequency : string) : Q :=
  let X := (price (basePrices r) propertyType
            + price (bathroomPrices r) bathrooms
            + price (serviceAdjustments r) serviceType)%Q in
  let d := (X * price (frequencyDiscounts r) frequency)%Q in
  (X - inject_Z (Qfloor (d + (1 # 2)))
     - inject_Z (Qfloor (X - d + (1 # 2))))%Q.

(** ** The same function on binary64 numbers

    [calculate] once more, with the numbers JavaScript has: primitive
    floats.  A table entry is the binary64 number its literal denotes. *)

Module Binary64.

Inductive value : Type :=
  | Undefined
  | Num (x : float).

Definition ToNumber (v : value) : float :=
  match v with
  | Undefined => nan
  | Num x => x
  end.

Definition add (a b : value) : value := Num (ToNumber a + ToNumber b)%float.
Definition sub (a b : value) : value := Num (ToNumber a - ToNumber b)%float.
Definition mul (a b : value) : value := Num (ToNumber a * ToNumber b)%float.
Definition ge0 (a : value) : bool := (0 <=? ToNumber a)%float.

(** The binary64 number of an integer, exact below [2^53]. *)
Fixpoint of_pos (p : positive) : float :=
  match p with
  | xH => 1
  | xO p => 2 * of_pos p
  | xI p => 2 * of_pos p + 1
  end%float.

Definition of_Z (z : Z) : float :=
  match z with
  | Z0 => 0%float
  | Zpos p => of_pos p
  | Zneg p => (- of_pos p)%float
  end.

(** A decimal literal is read as the nearest binary64 number. *)
Definition literal (q : Q) : float := (of_Z (Qnum q) / of_Z (Zpos (Qden q)))%float.

(** The rational a finite binary64 number is. *)
Definition exact (x : float) : option Q :=
  match Prim2SF x with
  | S754_zero _ => Some 0%Q
  | S754_finite s m e =>
      let n := if s then Zneg m else Zpos m in
      Some (match e with
            | Zneg p => Qmake n (2 ^ p)
            | _ => inject_Z (n * 2 ^ e)
            end)
  | _ => None
  end.

(** The integer [Math.round] yields on a finite number [n * 2^e]: the
    floor of [n * 2^e + 1/2], which for [e = -p] is
    [(2 * n + 2^p) / 2^(p+1)]. *)
Definition round_Z (x : float) : option Z :=
  match Prim2SF x with
  | S754_zero _ => Some 0%Z
  | S754_finite s m e =>
      let n := if s then Zneg m else Zpos m in
      Some (match e with
            | Zneg p => Z.shiftr (2 * n + Z.shiftl 1 (Zpos p)) (Zpos p + 1)
            | _ => Z.shiftl n e
            end)
  | _ => None
  end.

(** [Math.round]: [NaN] and the infinities are left as they are. *)
Definition Math_round (a : value) : value :=
  match round_Z (ToNumber a) with
  | Some z => Num (of_Z z)
  | None => Num (ToNumber a)
  end.

(** [o[k]]: the entry, read as a binary64 number. *)
Definition get (o : object) (k : string) : value :=
  match own o k with
  | Some q => Num (literal q)
  | None => Undefined
  end.

Module locals.
Record t : Type := mk {
  total : value;
  serviceAdj : value;
  freqDiscount : value;
  addOnsTotal : value;
  discountable : value;
  discount : value
}.
End locals.

Module display.
Record t : Type := mk {
  total : value;
  base : value;
  service : bool * value;
  frequency : value;
  addOns : value
}.
End display.

Definition addOn_step (r : RateTable) (i : inputs.t)
    (addOnsTotal : value) (key : string) : value :=
  if bool_decide (key ∈ inputs.checked i)
  then add addOnsTotal (get (addOnPrices r) key)
  else addOnsTotal.

Definition compute (r : RateTable) (i : inputs.t) : locals.t :=
  let total := get (basePrices r) (inputs.propertyType i) in
  let total := add total (get (bathroomPrices r) (inputs.bathrooms i)) in
  let serviceAdj := get (serviceAdjustments r) (inputs.serviceType i) in
  let freqDiscount := get (frequencyDiscounts r) (inputs.frequency i) in
  let addOnsTotal :=
    fold_left (addOn_step r i) (keys (addOnPrices r)) (Num 0%float) in
  let total := add total serviceAdj in
  let discountable := total in
  let discount := mul discountable freqDiscount in
  let total := add total addOnsTotal in
  let total := sub total discount in
  locals.mk total serviceAdj freqDiscount addOnsTotal discountable discount.

Definition quote (r : RateTable) (i : inputs.t) : display.t :=
  let l := compute r i in
  display.mk
    (Math_round (locals.total l))
    (add (get (basePrices r) (inputs.propertyType i))
         (get (bathroomPrices r) (inputs.bathrooms i)))
    (ge0 (locals.serviceAdj l), locals.serviceAdj l)
    (Math_round (locals.discount l))
    (locals.addOnsTotal l).

(** A binary64 value and a value of the exact model are the same whole
    number, or are both [undefined], or both not a number. *)
Definition same (v : value) (w : JS.value) : bool :=
  match v, w with
  | Undefined, JS.Undefined => true
  | Num x, JS.Num q => Pos.eqb (Qden q) 1 && (x =? of_Z (Qnum q))%float
  | Num x, JS.NaN => is_nan x
  | _, _ => false
  end.

End Binary64.


(** The sublists of a list. *)
Fixpoint sublists (l : list string) : list (list string) :=
  match l with
  | [] => [[]]
  | k :: l => map (cons k) (sublists l) ++ sublists l
  end.

(** The sets of add-on keys of the table. *)
Definition selections (r : RateTable) : list (gset string) :=
  map list_to_set (sublists (keys (addOnPrices r))).

(** The configurations whose keys the tables have. *)
Definition all_inputs (r : RateTable) : list inputs.t :=
  let sels := selections r in
  flat_map (λ pt, flat_map (λ bt, flat_map (λ st, flat_map (λ fr,
    map (inputs.mk pt bt st fr) sels)
    (keys (frequencyDiscounts r)))
    (keys (serviceAdjustments r)))
    (keys (bathroomPrices r)))
    (keys (basePrices r)).

(** Binary64 and exact arithmetic display the same. *)
Definition same_display (r : RateTable) (i : inputs.t) : bool :=
  let d := Binary64.quote r i in
  let e := quote r i in
  Binary64.same (Binary64.display.total d) (display.total e) &&
  Binary64.same (Binary64.display.base d) (display.base e) &&
  Bool.eqb (fst (Binary64.display.service d)) (fst (display.service e)) &&
  Binary64.same (snd (Binary64.display.service d)) (snd (display.service e)) &&
  Binary64.same (Binary64.display.frequency d) (display.frequency e) &&
  Binary64.same (Binary64.display.addOns d) (display.addOns e).

(** * The rest of the page

    The other functions of [v2/script.js], and the articles loader that
    follows it in the same file.  Numbers are exact rationals as above;
    a listener is a function of the state it closes over, an element is
    what the code reads and writes of it, and the elements the code
    dereferences without a test are taken to be there unless a model says
    otherwise. *)

(** ** The testimonial carousel

    [n] is the number of [.testimonial-card] elements in the track.  The
    [.carousel-dot] elements of the document are the buttons [createDots]
    makes, and an interval is an id in the set of those that run. *)

Module Carousel.

(** [getCardsPerView], lines 168-172. *)
Definition getCardsPerView (innerWidth : Z) : positive :=
  if (innerWidth <? 768)%Z then 1%positive
  else if (innerWidth <? 1024)%Z then 2%positive
  else 3%positive.

(** [Math.ceil(cards.length / cardsPerView)] for [n] cards. *)
Definition totalSlides (n : nat) (cardsPerView : positive) : Z :=
  Qceiling (Z.of_nat n # cardsPerView).

Record t : Type := mk {
  currentIndex : Z;
  cardsPerView : positive;
  (** the buttons of [dotsContainer]: whether each has the class [active] *)
  dots : list bool;
  (** the [x] of [translateX(-x rem)], once set *)
  transform : option Z;
  (** [cards[0].offsetWidth], as the layout has it *)
  offsetWidth : Z;
  (** the id held by [autoplay], the intervals that run, the next id *)
  autoplay : nat;
  intervals : gset nat;
  next_id : nat
}.

Definition set_currentIndex (v : Z) (s : t) : t :=
  mk v (cardsPerView s) (dots s) (transform s) (offsetWidth s)
     (autoplay s) (intervals s) (next_id s).

Definition set_dots (v : list bool) (s : t) : t :=
  mk (currentIndex s) (cardsPerView s) v (transform s) (offsetWidth s)
     (autoplay s) (intervals s) (next_id s).

(** How a handler ends: normally, or by the [TypeError] of reading a
    property of [undefined]; the state is what it had reached. *)
Inductive outcome : Type :=
  | Ok (s : t)
  | TypeError (s : t).

Definition state_of (o : outcome) : t :=
  match o with Ok s => s | TypeError s => s end.

(** [createDots], lines 174-184. *)
Definition createDots (n : nat) (s : t) : t :=
  set_dots
    (map (λ i, (Z.of_nat i =? currentIndex s)%Z)
         (seq 0 (Z.to_nat (totalSlides n (cardsPerView s)))))
    s.

(** [updateCarousel], lines 186-194: [cards[0]] is [undefined] when there
    is no card. *)
Definition updateCarousel (n : nat) (s : t) : outcome :=
  match n with
  | O => TypeError s
  | S _ =>
      let cardWidth := (offsetWidth s + 24)%Z in
      Ok (mk (currentIndex s) (cardsPerView s)
             (imap (λ index _, (Z.of_nat index =? currentIndex s)%Z) (dots s))
             (Some (currentIndex s * cardWidth)%Z) (offsetWidth s)
             (autoplay s) (intervals s) (next_id s))
  end.

(** [goToSlide], lines 196-202. *)
Definition goToSlide (n : nat) (index : Z) (s : t) : outcome :=
  let total := totalSlides n (cardsPerView s) in
  let s := set_currentIndex index s in
  let s := if (total <=? currentIndex s)%Z then set_currentIndex 0 s else s in
  let s := if (currentIndex s <? 0)%Z
           then set_currentIndex (total - 1) s else s in
  updateCarousel n s.

Definition nextSlide (n : nat) (s : t) : outcome :=
  goToSlide n (currentIndex s + 1) s.

Definition prevSlide (n : nat) (s : t) : outcome :=
  goToSlide n (currentIndex s - 1) s.

(** The listener of [resize], lines 224-232, after the window has taken
    the width [innerWidth] and the first card the width [cardWidth]. *)
Definition resize (n : nat) (innerWidth cardWidth : Z) (s : t) : outcome :=
  let s := mk (currentIndex s) (cardsPerView s) (dots s) (transform s)
              cardWidth (autoplay s) (intervals s) (next_id s) in
  let newCardsPerView := getCardsPerView innerWidth in
  if decide (newCardsPerView ≠ cardsPerView s) then
    let s := mk 0 newCardsPerView (dots s) (transform s) (offsetWidth s)
                (autoplay s) (intervals s) (next_id s) in
    updateCarousel n (createDots n s)
  else Ok s.

(** [setInterval(nextSlide, 5000)] assigned to [autoplay]. *)
Definition startAutoplay (s : t) : t :=
  mk (currentIndex s) (cardsPerView s) (dots s) (transform s) (offsetWidth s)
     (next_id s) ({[next_id s]} ∪ intervals s) (S (next_id s)).

(** [clearInterval(autoplay)]. *)
Definition stopAutoplay (s : t) : t :=
  mk (currentIndex s) (cardsPerView s) (dots s) (transform s) (offsetWidth s)
     (autoplay s) (intervals s ∖ {[autoplay s]}) (next_id s).

(** What happens to the carousel. *)
Inductive event : Type :=
  | PrevClick
  | NextClick
  | DotClick (i : nat)
  | Tick (id : nat)
  | Resize (innerWidth cardWidth : Z)
  | MouseEnter
  | MouseLeave.

#[global] Instance event_eq_dec : EqDecision event.
Proof. solve_decision. Defined.

(** The listener an event runs.  A dot that does not exist is not clicked
    and an interval that does not run does not tick. *)
Definition handle (n : nat) (e : event) (s : t) : outcome :=
  match e with
  | PrevClick => prevSlide n s
  | NextClick => nextSlide n s
  | DotClick i =>
      if decide (i < length (dots s))%nat then goToSlide n (Z.of_nat i) s
      else Ok s
  | Tick id =>
      if decide (id ∈ intervals s) then nextSlide n s else Ok s
  | Resize w c => resize n w c s
  | MouseEnter => Ok (stopAutoplay s)
  | MouseLeave => Ok (startAutoplay s)
  end.

Definition step (n : nat) (s : t) (e : event) : t := state_of (handle n e s).

Definition run (n : nat) (es : list event) (s : t) : t :=
  fold_left (step n) es s.

(** Lines 165-166, 216 and 234-235 of [initTestimonialCarousel], for a
    window [innerWidth] wide and a first card [cardWidth] wide. *)
Definition init (n : nat) (innerWidth cardWidth : Z) : outcome :=
  let s := mk 0 (getCardsPerView innerWidth) [] None cardWidth 0 ∅ 0 in
  let s := startAutoplay s in
  updateCarousel n (createDots n s).

End Carousel.

(** The pointer enters the track only from outside and leaves it only
    from inside; [hovered] says where it is. *)
Fixpoint alternating (hovered : bool) (es : list Carousel.event) : Prop :=
  match es with
  | [] => True
  | Carousel.MouseEnter :: es => hovered = false ∧ alternating true es
  | Carousel.MouseLeave :: es => hovered = true ∧ alternating false es
  | _ :: es => alternating hovered es
  end.

(** Where the pointer is after the events. *)
Fixpoint hovered_after (hovered : bool) (es : list Carousel.event) : bool :=
  match es with
  | [] => hovered
  | Carousel.MouseEnter :: es => hovered_after true es
  | Carousel.MouseLeave :: es => hovered_after false es
  | _ :: es => hovered_after hovered es
  end.

(** Interval ids are handed out in increasing order. *)
Definition ids_fresh (s : Carousel.t) : Prop :=
  (Carousel.autoplay s < Carousel.next_id s)%nat ∧
  ∀ id, id ∈ Carousel.intervals s → (id < Carousel.next_id s)%nat.

(** What the dots are when slide [idx] of [total] is shown. *)
Definition dots_for (total idx : Z) : list bool :=
  map (λ i, (Z.of_nat i =? idx)%Z) (seq 0 (Z.to_nat total)).

(** The state the carousel keeps when it has a card: the slide shown is
    one of the slides, there is a dot for each slide, and the dot of the
    slide shown is the active one. *)
Definition carousel_inv (n : nat) (s : Carousel.t) : Prop :=
  (0 <= Carousel.currentIndex s
     < Carousel.totalSlides n (Carousel.cardsPerView s))%Z ∧
  Carousel.dots s =
    dots_for (Carousel.totalSlides n (Carousel.cardsPerView s))
             (Carousel.currentIndex s).

(** ** The before/after sliders *)

Module Slider.

(** A JavaScript number: a rational, an infinity or [NaN] (zero is taken
    to be unsigned). *)
Inductive num : Type :=
  | Fin (q : Q)
  | PInf
  | NInf
  | NaN.

Definition sgn (q : Q) : comparison := (q ?= 0)%Q.

(** [a - b]. *)
Definition sub (a b : num) : num :=
  match a, b with
  | NaN, _ | _, NaN => NaN
  | Fin x, Fin y => Fin (x - y)
  | Fin _, PInf => NInf
  | Fin _, NInf => PInf
  | PInf, PInf => NaN
  | PInf, _ => PInf
  | NInf, NInf => NaN
  | NInf, _ => NInf
  end.

(** [a / b]. *)
Definition div (a b : num) : num :=
  match a, b with
  | NaN, _ | _, NaN => NaN
  | Fin x, Fin y =>
      match sgn y with
      | Eq => match sgn x with Eq => NaN | Gt => PInf | Lt => NInf end
      | _ => Fin (x / y)
      end
  | Fin _, _ => Fin 0
  | PInf, Fin y => match sgn y with Lt => NInf | _ => PInf end
  | NInf, Fin y => match sgn y with Lt => PInf | _ => NInf end
  | _, _ => NaN
  end.

(** [a * b]. *)
Definition mul (a b : num) : num :=
  match a, b with
  | NaN, _ | _, NaN => NaN
  | Fin x, Fin y => Fin (x * y)
  | Fin x, PInf | PInf, Fin x =>
      match sgn x with Eq => NaN | Gt => PInf | Lt => NInf end
  | Fin x, NInf | NInf, Fin x =>
      match sgn x with Eq => NaN | Gt => NInf | Lt => PInf end
  | PInf, PInf | NInf, NInf => PInf
  | PInf, NInf | NInf, PInf => NInf
  end.

(** [Math.min(a, b)]. *)
Definition Math_min (a b : num) : num :=
  match a, b with
  | NaN, _ | _, NaN => NaN
  | NInf, _ | _, NInf => NInf
  | PInf, c | c, PInf => c
  | Fin x, Fin y => if Qle_bool x y then Fin x else Fin y
  end.

(** [Math.max(a, b)]. *)
Definition Math_max (a b : num) : num :=
  match a, b with
  | NaN, _ | _, NaN => NaN
  | PInf, _ | _, PInf => PInf
  | NInf, c | c, NInf => c
  | Fin x, Fin y => if Qle_bool x y then Fin y else Fin x
  end.

(** What [getBoundingClientRect] gives for the slider. *)
Record rect : Type := mkRect { left : Q; width : Q }.

(** The [percentage] of [updateSlider(x)], lines 107-109. *)
Definition percentage (r : rect) (x : Q) : num :=
  let percentage :=
    mul (div (sub (Fin x) (Fin (left r))) (Fin (width r))) (Fin 100) in
  Math_max (Fin 0) (Math_min (Fin 100) percentage).

(** One slider: the flag of its closure and the two styles it writes,
    each the number before the ['%']. *)
Record t : Type := mk {
  isDragging : bool;
  beforeImage_width : option num;
  handle_left : option num
}.

(** [updateSlider], lines 106-112. *)
Definition updateSlider (r : rect) (x : Q) (s : t) : t :=
  let percentage := percentage r x in
  mk (isDragging s) (Some percentage) (Some percentage).

(** The events the listeners of lines 114-149 hear, each with the
    rectangle of the slider at that moment; a click says whether its
    target is the handle. *)
Inductive event : Type :=
  | MouseDown
  | MouseMove (r : rect) (clientX : Q)
  | MouseUp
  | TouchStart
  | TouchMove (r : rect) (clientX : Q)
  | TouchEnd
  | Click (r : rect) (clientX : Q) (onHandle : bool).

Definition set_isDragging (b : bool) (s : t) : t :=
  mk b (beforeImage_width s) (handle_left s).

Definition step (s : t) (e : event) : t :=
  match e with
  | MouseDown | TouchStart => set_isDragging true s
  | MouseUp | TouchEnd => set_isDragging false s
  | MouseMove r x | TouchMove r x =>
      if isDragging s then updateSlider r x s else s
  | Click r x onHandle => if onHandle then s else updateSlider r x s
  end.

Definition run (es : list event) (s : t) : t := fold_left step es s.

(** A slider no script has touched. *)
Definition init : t := mk false None None.


End Slider.

(** [x] kept between 0 and 100. *)
Definition clamp (x : Q) : Q :=
  if Qle_bool x 0 then 0%Q else if Qle_bool 100 x then 100%Q else x.



(** The event is a pointer or finger move. *)
Definition is_move (e : Slider.event) : bool :=
  match e with
  | Slider.MouseMove _ _ | Slider.TouchMove _ _ => true
  | _ => false
  end.

(** ** The booking form *)

Module Form.

(** A JavaScript string: its UTF-16 code units. *)
Definition jsstring : Type := list N.

(** The code units [trim] removes: the white space and line terminators
    of ECMAScript. *)
Definition is_whitespace (c : N) : bool :=
  ((c =? 9) || (c =? 10) || (c =? 11) || (c =? 12) || (c =? 13) ||
   (c =? 32) || (c =? 160) || (c =? 5760) ||
   ((8192 <=? c) && (c <=? 8202)) ||
   (c =? 8232) || (c =? 8233) || (c =? 8239) || (c =? 8287) ||
   (c =? 12288) || (c =? 65279))%N.

Fixpoint trimStart (s : jsstring) : jsstring :=
  match s with
  | [] => []
  | c :: s' => if is_whitespace c then trimStart s' else s
  end.

Definition trimEnd (s : jsstring) : jsstring := rev (trimStart (rev s)).

(** [s.trim()]. *)
Definition trim (s : jsstring) : jsstring := trimEnd (trimStart s).

(** [s !== '']. *)
Definition nonempty (s : jsstring) : bool :=
  match s with [] => false | _ => true end.

(** The object [Object.fromEntries(formData.entries())], for a form
    whose controls are text controls. *)
Definition data : Type := gmap string jsstring.

Definition required : list string :=
  ["name"; "email"; "phone"; "date"; "service"].

(** [validateForm], lines 441-444: a missing field is [undefined] and an
    empty one is [''], both falsy. *)
Definition validateForm (d : data) : bool :=
  forallb (λ field,
             match d !! field with
             | None => false
             | Some v => nonempty v && nonempty (trim v)
             end)
          required.

(** The double quote. *)
Definition dq : string := String (Ascii.ascii_of_nat 34) EmptyString.

Definition sending : string :=
  "<i class=" ++ dq ++ "fas fa-spinner fa-spin" ++ dq ++ "></i> Sending...".

Definition please_fill : string := "Please fill in all required fields.".

Definition thank_you : string :=
  "Thank you! We'll contact you within 2 hours to confirm your booking.".

(** The form, its message and its button, and the handlers that wait for
    their [setTimeout] of 1500 ms, each with the [originalText] it
    holds. *)
Record t : Type := mk {
  fields : data;
  message_textContent : string;
  message_className : string;
  button_innerHTML : string;
  button_disabled : bool;
  waiting : list string
}.

(** [showMessage], lines 446-449. *)
Definition showMessage (text type : string) (s : t) : t :=
  mk (fields s) text ("form-message " ++ type)
     (button_innerHTML s) (button_disabled s) (waiting s).

(** The listener of [submit] up to its [await], lines 412-431. *)
Definition submit (s : t) : t :=
  if negb (validateForm (fields s)) then showMessage please_fill "error" s
  else
    let originalText := button_innerHTML s in
    mk (fields s) (message_textContent s) (message_className s)
       sending true (waiting s ++ [originalText]).

(** The rest of the listener, lines 433-437, when its timer fires;
    [defaults] is what [form.reset()] restores. *)
Definition resume (defaults : data) (s : t) : t :=
  match waiting s with
  | [] => s
  | originalText :: rest =>
      let s := showMessage thank_you "success" s in
      mk defaults (message_textContent s) (message_className s)
         originalText false rest
  end.

Inductive event : Type :=
  | Input (name : string) (value : jsstring)
  | Submit
  | Timeout.

Definition step (defaults : data) (s : t) (e : event) : t :=
  match e with
  | Input name value =>
      mk (<[name := value]> (fields s)) (message_textContent s)
         (message_className s) (button_innerHTML s) (button_disabled s)
         (waiting s)
  | Submit => submit s
  | Timeout => resume defaults s
  end.

Definition run (defaults : data) (es : list event) (s : t) : t :=
  fold_left (step defaults) es s.

End Form.

(** The text of an ASCII string as code units. *)
Fixpoint units (s : string) : Form.jsstring :=
  match s with
  | EmptyString => []
  | String a s => Ascii.N_of_ascii a :: units s
  end.

(** The field has a value with a code unit that is not white space. *)
Definition filled (d : Form.data) (field : string) : Prop :=
  ∃ v c, d !! field = Some v ∧ c ∈ v ∧ Form.is_whitespace c = false.

(** [submit] is heard only while the button is enabled. *)
Fixpoint one_at_a_time (defaults : Form.data) (s : Form.t)
    (es : list Form.event) : Prop :=
  match es with
  | [] => True
  | e :: es =>
      (e = Form.Submit → Form.button_disabled s = false) ∧
      one_at_a_time defaults (Form.step defaults s e) es
  end.

(** The button as the page has it, or as it is while one submission
    waits for its timer. *)
Definition button_ok (label : string) (s : Form.t) : Prop :=
  (Form.button_disabled s = false ∧ Form.button_innerHTML s = label ∧
   Form.waiting s = []) ∨
  (Form.button_disabled s = true ∧ Form.button_innerHTML s = Form.sending ∧
   Form.waiting s = [label]).

(** A form with every required field filled in, and the page around it. *)
Definition filled_in : Form.data :=
  list_to_map [("name", units "Ann"); ("email", units "a@b.c");
               ("phone", units "555 0100"); ("date", units "2026-03-01");
               ("service", units "deep")].

Definition booking_page : Form.t :=
  Form.mk filled_in "" "form-message" "Book Now" false [].

(** ** [debounce] and [throttle]

    A timer is an id in the table of the timers that are set, with what
    its callback holds; [setTimeout] hands out fresh ids and a timer
    leaves the table when it fires or is cleared.  The wrapped [func] is
    seen through the list of the arguments it has been called with; it
    is taken to return, and not to call the wrapper itself. *)

Module Debounce.
Section Debounce.
Context {A : Type}.

(** The closure of [debounce(func, wait)], lines 512-522: its variable
    [timeout], the timers set, the next id, and the calls of [func]. *)
Record t : Type := mk {
  timeout : option nat;
  timers : gmap nat A;
  next_id : nat;
  calls : list A
}.

Definition init : t := mk None ∅ 0 [].

(** [clearTimeout(timeout)]: nothing to clear when [timeout] is
    [undefined] or names a timer that is gone. *)
Definition clearTimeout (id : option nat) (m : gmap nat A) : gmap nat A :=
  match id with
  | Some i => delete i m
  | None => m
  end.

(** [executedFunction(...args)]. *)
Definition call (args : A) (s : t) : t :=
  let m := clearTimeout (timeout s) (timers s) in
  let id := next_id s in
  mk (Some id) (<[id := args]> m) (S id) (calls s).

(** The timer [id] fires and runs [later]; no timer, no callback. *)
Definition fire (id : nat) (s : t) : t :=
  match timers s !! id with
  | None => s
  | Some args =>
      let m := delete id (timers s) in
      let m := clearTimeout (timeout s) m in
      mk (timeout s) m (next_id s) (calls s ++ [args])
  end.

Inductive event : Type :=
  | Call (args : A)
  | Fire (id : nat).

Definition step (s : t) (e : event) : t :=
  match e with
  | Call args => call args s
  | Fire id => fire id s
  end.

Definition run (es : list event) (s : t) : t := fold_left step es s.

End Debounce.
Arguments t : clear implicits.
Arguments event : clear implicits.
End Debounce.

Module Throttle.
Section Throttle.
Context {A : Type}.

(** The closure of [throttle(func, limit)], lines 524-533: its variable
    [inThrottle], the timers set, the next id, and the calls of [func]. *)
Record t : Type := mk {
  inThrottle : bool;
  timers : gset nat;
  next_id : nat;
  calls : list A
}.

(** [inThrottle] starts out [undefined], which is falsy. *)
Definition init : t := mk false ∅ 0 [].

(** The function [throttle] returns. *)
Definition call (args : A) (s : t) : t :=
  if negb (inThrottle s)
  then mk true ({[next_id s]} ∪ timers s) (S (next_id s)) (calls s ++ [args])
  else s.

(** The timer [id] fires: [inThrottle = false]. *)
Definition fire (id : nat) (s : t) : t :=
  if decide (id ∈ timers s)
  then mk false (timers s ∖ {[id]}) (next_id s) (calls s)
  else s.

Inductive event : Type :=
  | Call (args : A)
  | Fire (id : nat).

Definition step (s : t) (e : event) : t :=
  match e with
  | Call args => call args s
  | Fire id => fire id s
  end.

Definition run (es : list event) (s : t) : t := fold_left step es s.

End Throttle.
Arguments t : clear implicits.
Arguments event : clear implicits.
End Throttle.

(** The arguments of the calls among the events. *)
Definition debounce_args {A} (es : list (Debounce.event A)) : list A :=
  omap (λ e, match e with Debounce.Call a => Some a | _ => None end) es.

Definition throttle_args {A} (es : list (Throttle.event A)) : list A :=
  omap (λ e, match e with Throttle.Call a => Some a | _ => None end) es.

(** The only timer set, if any, is the one [timeout] names. *)
Definition debounce_inv {A} (s : Debounce.t A) : Prop :=
  ∀ id a, Debounce.timers s !! id = Some a → Debounce.timeout s = Some id.

(** A timer is set exactly while [inThrottle] is true, and then only
    one; ids are fresh. *)
Definition throttle_inv {A} (s : Throttle.t A) : Prop :=
  (if Throttle.inThrottle s
   then ∃ id, Throttle.timers s = {[id]}
   else Throttle.timers s = ∅) ∧
  ∀ id, id ∈ Throttle.timers s → (id < Throttle.next_id s)%nat.

(** The call that waits for the timer, if one does. *)
Definition debounce_waiting {A} (s : Debounce.t A) : option A :=
  match Debounce.timeout s with
  | Some id => Debounce.timers s !! id
  | None => None
  end.

(** The calls of [func] so far are among the arguments [l] received, in
    order, and the call that waits is the last of [l]. *)
Definition debounce_log {A} (s : Debounce.t A) (l : list A) : Prop :=
  match debounce_waiting s with
  | Some a => ∃ l', l = (l' ++ [a])%list ∧ sublist (Debounce.calls s) l'
  | None => sublist (Debounce.calls s) l
  end.

(** ** Class lists

    The [classList] of an element is the set of its class names. *)

Module ClassList.
Definition t : Type := gset string.
Definition add (c : string) (l : t) : t := {[c]} ∪ l.
Definition remove (c : string) (l : t) : t := l ∖ {[c]}.
Definition contains (c : string) (l : t) : bool := bool_decide (c ∈ l).
(** [toggle(c)] with one argument. *)
Definition toggle (c : string) (l : t) : t :=
  if contains c l then remove c l else add c l.
End ClassList.

Module Faq.

(** The listener of line 360 on the question of item [j], over the class
    lists of the [.faq-item] elements; there is no listener where there is
    no item. *)
Definition click (j : nat) (faqItems : list ClassList.t) : list ClassList.t :=
  match faqItems !! j with
  | None => faqItems
  | Some item =>
      let isActive := ClassList.contains "active" item in
      let faqItems := map (ClassList.remove "active") faqItems in
      if negb isActive then alter (ClassList.add "active") j faqItems
      else faqItems
  end.

End Faq.

Module Gallery.

Record tab : Type := mkTab {
  tab_classList : ClassList.t;
  (** [getAttribute('data-filter')], [None] for [null] *)
  data_filter : option string
}.

Record item : Type := mkItem {
  (** [getAttribute('data-category')], [None] for [null] *)
  data_category : option string;
  (** [style.display] and [style.animation], [None] until set *)
  display : option string;
  animation : option string
}.

Record t : Type := mk { tabs : list tab; items : list item }.

(** The test of line 391. *)
Definition shown (filter : option string) (i : item) : bool :=
  bool_decide (filter = Some "all") || bool_decide (data_category i = filter).

(** The listener of line 382 on tab [k]. *)
Definition click (k : nat) (g : t) : t :=
  match tabs g !! k with
  | None => g
  | Some this =>
      let filter := data_filter this in
      let tabs' :=
        map (λ t, mkTab (ClassList.remove "active" (tab_classList t))
                        (data_filter t)) (tabs g) in
      let tabs' :=
        alter (λ t, mkTab (ClassList.add "active" (tab_classList t))
                          (data_filter t)) k tabs' in
      let items' :=
        map (λ i, if shown filter i
                  then mkItem (data_category i) (Some "block")
                              (Some "fadeInUp 0.5s ease forwards")
                  else mkItem (data_category i) (Some "none") (animation i))
            (items g) in
      mk tabs' items'
  end.

End Gallery.

Module Navbar.

(** The class lists of [navbar], of [.nav-links] and of the [i] in the
    toggle button. *)
Record t : Type := mk {
  navbar : ClassList.t;
  navLinks : ClassList.t;
  icon : ClassList.t
}.

Inductive event : Type :=
  | Scroll (scrollY : Q)
  | ToggleClick
  | LinkClick.

(** The listeners of lines 28-50. *)
Definition step (s : t) (e : event) : t :=
  match e with
  | Scroll scrollY =>
      if Qle_bool scrollY 50
      then mk (ClassList.remove "scrolled" (navbar s)) (navLinks s) (icon s)
      else mk (ClassList.add "scrolled" (navbar s)) (navLinks s) (icon s)
  | ToggleClick =>
      mk (navbar s) (ClassList.toggle "active" (navLinks s))
         (ClassList.toggle "fa-times"
            (ClassList.toggle "fa-bars" (icon s)))
  | LinkClick =>
      mk (navbar s) (ClassList.remove "active" (navLinks s))
         (ClassList.remove "fa-times" (ClassList.add "fa-bars" (icon s)))
  end.

Definition run (es : list event) (s : t) : t := fold_left step es s.

End Navbar.

(** The menu is open exactly when the icon is the cross, and the icon is
    the bars or the cross, not both. *)
Definition icon_matches_menu (s : Navbar.t) : Prop :=
  ("active" ∈ Navbar.navLinks s ↔ "fa-times" ∈ Navbar.icon s) ∧
  ("fa-bars" ∈ Navbar.icon s ↔ "fa-times" ∉ Navbar.icon s).

(** The last scroll position among the events, if the page scrolled. *)
Fixpoint last_scroll (es : list Navbar.event) (y : option Q) : option Q :=
  match es with
  | [] => y
  | Navbar.Scroll y' :: es => last_scroll es (Some y')
  | _ :: es => last_scroll es y
  end.

(** ** The articles loader

    Texts are kept as the bytes of their UTF-8 encoding. *)

Module Articles.

Record article : Type := mkArticle {
  title : string;
  icon : string;
  date : string;
  category : string;
  excerpt : string;
  url : string
}.

(** An object whose property values are arrays of articles. *)
Definition db : Type := list (string * list article).

Definition article_genesis_day : article :=
  mkArticle "Genesis Day" "🚀" "2026-02-04" "Genesis"
    "7 intelligent systems launched in one night. The beginning of Life OS."
    "/journey/2026-02-04-genesis-day.html".

Definition article_the_transformation : article :=
  mkArticle "The Transformation" "🔄" "2026-02-04" "Journey"
    "How building in public transformed the development process."
    "/journey/2026-02-04-transformation.html".

Definition article_templates_published : article :=
  mkArticle "Templates Published" "📋" "2026-02-04" "Templates"
    "Publishing the templates that power Life OS automation."
    "/journey/2026-02-04-templates-published.html".

Definition article_ai_trends_report : article :=
  mkArticle "AI Trends Report" "🤖" "2026-02-05" "AI Trends"
    "Key trends in AI: LLMs, voice interfaces, agents, and local models."
    "/blog/ai-trends-report.html".

Definition article_build_your_ai_powerhouse : article :=
  mkArticle "Build Your AI Powerhouse" "🖥️" "2026-02-05" "Hardware"
    "Self-hosted hardware that outperforms Mac Studio. Complete 4-week course."
    "/hardware-workstation/".

Definition article_sparkling_solutions : article :=
  mkArticle "Sparkling Solutions" "✨" "2026-02-04" "Business"
    "Airbnb cleaning business with secure calendar system."
    "https://sparklingsolutions.biz".

Definition article_be_repaired : article :=
  mkArticle "BE Repaired" "🛠️" "2026-02-04" "Business"
    "Handyman services business with online booking."
    "https://be-repaired.b3rt.dev".

(** [ARTICLES_DB], lines 744-848. *)
Definition ARTICLES_DB : db :=
  [("journey", [article_genesis_day; article_the_transformation;
                article_templates_published]);
   ("tech", [article_ai_trends_report; article_build_your_ai_powerhouse]);
   ("business", [article_sparkling_solutions; article_be_repaired]);
   ("default", [article_genesis_day; article_ai_trends_report;
                article_build_your_ai_powerhouse;
                article_the_transformation])].

(** The own property [k] of [o]. *)
Fixpoint own_array (o : db) (k : string) : option (list article) :=
  match o with
  | [] => None
  | (k', v) :: o' => if String.eqb k k' then Some v else own_array o' k
  end.

(** The names an object literal inherits from [Object.prototype]; what
    is behind each is a function or an object: truthy, and without a
    [slice]. *)
Definition inherited : list string :=
  ["constructor"; "hasOwnProperty"; "isPrototypeOf"; "propertyIsEnumerable";
   "toLocaleString"; "toString"; "valueOf"; "__proto__";
   "__defineGetter__"; "__defineSetter__";
   "__lookupGetter__"; "__lookupSetter__"].

Inductive property : Type :=
  | Array (a : list article)
  | Inherited
  | Missing.

(** [o[k]]. *)
Definition get (o : db) (k : string) : property :=
  match own_array o k with
  | Some a => Array a
  | None => if bool_decide (k ∈ inherited) then Inherited else Missing
  end.

(** The double quote and the line feed. *)
Definition dq : string := String (Ascii.ascii_of_nat 34) EmptyString.
Definition nl : string := String (Ascii.ascii_of_nat 10) EmptyString.

(** The three template literals of lines 858-888. *)
Definition header : string :=
  nl ++ "        <div class=" ++ dq ++ "articles-container" ++ dq ++ ">"
  ++ nl ++ "            <div class=" ++ dq ++ "articles-header" ++ dq ++ ">"
  ++ nl ++ "                <h2>📚 Related Articles</h2>" ++ nl
  ++ "                <p>Latest posts and updates</p>" ++ nl
  ++ "            </div>" ++ nl ++ "            <div class=" ++ dq
  ++ "articles-grid" ++ dq ++ ">" ++ nl ++ "    ".

Definition card (a : article) : string :=
  nl ++ "            <article class=" ++ dq ++ "article-card" ++ dq
  ++ " onclick=" ++ dq ++ "location.href='" ++ url a ++ "'" ++ dq ++ ">"
  ++ nl ++ "                <div class=" ++ dq ++ "article-icon" ++ dq
  ++ ">" ++ icon a ++ "</div>" ++ nl ++ "                <div class=" ++ dq
  ++ "article-meta" ++ dq ++ ">" ++ nl ++ "                    <span class="
  ++ dq ++ "tag" ++ dq ++ ">" ++ category a ++ "</span>" ++ nl
  ++ "                    <span class=" ++ dq ++ "tag" ++ dq ++ ">"
  ++ date a ++ "</span>" ++ nl ++ "                </div>" ++ nl
  ++ "                <h3>" ++ title a ++ "</h3>" ++ nl
  ++ "                <p>" ++ excerpt a ++ "</p>" ++ nl
  ++ "                <span class=" ++ dq ++ "read-more" ++ dq
  ++ ">Read More →</span>" ++ nl ++ "            </article>" ++ nl
  ++ "        ".

Definition footer : string :=
  nl ++ "            </div>" ++ nl ++ "            <div class=" ++ dq
  ++ "articles-footer" ++ dq ++ ">" ++ nl ++ "                <a href="
  ++ dq ++ "/journey/" ++ dq ++ " class=" ++ dq ++ "btn btn-secondary" ++ dq
  ++ ">View All Articles →</a>" ++ nl ++ "            </div>" ++ nl
  ++ "        </div>" ++ nl ++ "    ".

(** [ToIntegerOrInfinity] of a number: towards zero, and 0 for [NaN]. *)
Definition ToIntegerOrInfinity (v : value) : Z :=
  match ToNumber v with
  | Num q => if Qle_bool 0 q then Qfloor q else Qceiling q
  | _ => 0%Z
  end.

(** [a.slice(0, end)] for an [end] that is not [undefined]. *)
Definition slice0 {A} (a : list A) (e : value) : list A :=
  let len := Z.of_nat (length a) in
  let relativeEnd := ToIntegerOrInfinity e in
  let final := if (relativeEnd <? 0)%Z then Z.max (len + relativeEnd) 0
               else Z.min relativeEnd len in
  take (Z.to_nat final) a.

(** An argument left out or [undefined] takes its default. *)
Definition limit_or_default (limit : value) : value :=
  match limit with
  | Undefined => Num 4
  | v => v
  end.

(** [articlesToShow], lines 855-856; [None] is the [TypeError] of
    [articles.slice] when [articles] is [undefined], the object having
    neither the category nor [default], or is an inherited property. *)
Definition articlesToShow (o : db) (category : option string)
    (limit : value) : option (list article) :=
  let category := default "default" category in
  let limit := limit_or_default limit in
  let articles :=
    match get o category with
    | Missing => get o "default"
    | p => p
    end in
  match articles with
  | Array a => Some (slice0 a limit)
  | _ => None
  end.

(** The [html] of lines 858-888. *)
Definition html (shown : list article) : string :=
  header ++ foldr (λ a rest, card a ++ rest) footer shown.

(** How a call ends: it returns, having assigned [innerHTML] to the
    container or nothing, or it throws. *)
Inductive outcome : Type :=
  | Returns (innerHTML : option string)
  | TypeError.

(** [renderArticles], lines 851-891, on a page whose elements have the
    ids [ids]. *)
Definition renderArticles (o : db) (ids : gset string) (containerId : string)
    (category : option string) (limit : value) : outcome :=
  if bool_decide (containerId ∈ ids) then
    match articlesToShow o category limit with
    | None => TypeError
    | Some shown => Returns (Some (html shown))
    end
  else Returns None.

End Articles.

(** ** The counters of the hero section

    One [.stat-number] and the interval [animateStats] starts for it.
    [target] is what [parseInt] made of the attribute [data-count]: a
    number or [NaN]; [parseInt] itself and [toLocaleString] are not
    modelled, a text is the number written and what is appended to it.
    With exact steps the running sum meets the target at tick 125; in
    binary64 it can fall just short of it there and meet it one tick
    later, so the properties below name no tick. *)

Module HeroStats.

(** [a >= b]. *)
Definition ge (a b : value) : bool :=
  match ToNumber a, ToNumber b with
  | Num x, Num y => Qle_bool y x
  | _, _ => false
  end.

(** [Math.floor]. *)
Definition Math_floor (a : value) : value :=
  match ToNumber a with
  | Num x => Num (inject_Z (Qfloor x))
  | _ => NaN
  end.

Record t : Type := mk {
  data_count : option string;
  target : value;
  current : value;
  textContent : option (value * string);
  timer : bool
}.

(** The body of the [forEach] of lines 61-76 up to [setInterval]. *)
Definition start (data_count : option string) (target : value) : t :=
  mk data_count target (Num 0) None true.

(** The callback of the interval, lines 67-75, every 16 ms while the
    interval is set. *)
Definition tick (s : t) : t :=
  if timer s then
    let duration := Num 2000 in
    let step := arith Qdiv (target s) (arith Qdiv duration (Num 16)) in
    let current := add (current s) step in
    if ge current (target s)
    then mk (data_count s) (target s) current
            (Some (target s,
                   if bool_decide (data_count s = Some "98")
                   then "%" else "+"))
            false
    else mk (data_count s) (target s) current
            (Some (Math_floor current, "")) true
  else s.

Definition ticks (k : nat) (s : t) : t := Nat.iter k tick s.

End HeroStats.

(** ** Initialisation of the page *)

Module Page.

(** The testimonial carousel of a page that has the track and both
    buttons. *)
Record testimonials : Type := mkTestimonials {
  has_dotsContainer : bool;
  cards : nat;
  innerWidth : Z;
  cardWidth : Z
}.

(** What of the page the initialisers touch before they return. *)
Record t : Type := mk {
  (** [#mobileToggle] is there *)
  has_mobileToggle : bool;
  (** for each [.before-after-slider], whether it has a [.slider-handle] *)
  slider_handles : list bool;
  (** [None] when [#testimonialTrack] or one of the two buttons is
      missing *)
  carousel : option testimonials;
  (** the four selects and the five display elements of the calculator
      are there *)
  has_calculator : bool;
  (** for each [.faq-item], whether it has a [.faq-question] *)
  faq_questions : list bool
}.

(** [initTestimonialCarousel] returns. *)
Definition initTestimonialCarousel (p : t) : bool :=
  match carousel p with
  | None => true
  | Some c =>
      has_dotsContainer c &&
      match Carousel.init (cards c) (innerWidth c) (cardWidth c) with
      | Carousel.Ok _ => true
      | Carousel.TypeError _ => false
      end
  end.

(** The calls of lines 7-16, each with whether it returns rather than
    throws. *)
Definition initialisers (p : t) : list (string * bool) :=
  [("initNavbar", has_mobileToggle p);
   ("initHeroStats", true);
   ("initBeforeAfterSliders", forallb id (slider_handles p));
   ("initTestimonialCarousel", initTestimonialCarousel p);
   ("initPricingCalculator", has_calculator p);
   ("initFAQ", forallb id (faq_questions p));
   ("initGallery", true);
   ("initContactForm", true);
   ("initSmoothScroll", true);
   ("initAnimations", true)].

(** The calls that return before one throws. *)
Fixpoint completed (calls : list (string * bool)) : list string :=
  match calls with
  | [] => []
  | (name, returns) :: calls =>
      if returns then name :: completed calls else []
  end.

(** The listener of [DOMContentLoaded], lines 5-17: the initialisers
    that have run to their end. *)
Definition DOMContentLoaded (p : t) : list string :=
  completed (initialisers p).

End Page.

(** What the finished counter appends to the number. *)
Definition suffix (data_count : option string) : string :=
  if bool_decide (data_count = Some "98") then "%" else "+".

(** A page with everything in place. *)
Definition page_complete : Page.t :=
  Page.mk true [true] (Some (Page.mkTestimonials true 5 1280 320)) true
          [true; true].

(** ** Reading a table *)

Lemma own_elem_of (o : object) (k : string) :
  k ∈ keys o → ∃ q, own o k = Some q.
Proof.
  induction o as [|[k' q] o IH]; simpl.
  - intros H. inversion H.
  - intros H. destruct (String.eqb_spec k k') as [->|Hne]; [eauto|].
    apply elem_of_cons in H as [H|H]; [congruence | auto].
Qed.

Lemma own_not_elem_of (o : object) (k : string) :
  k ∉ keys o → own o k = None.
Proof.
  induction o as [|[k' q] o IH]; simpl; [done|].
  intros H. apply not_elem_of_cons in H as [Hne H].
  destruct (String.eqb_spec k k'); [congruence | auto].
Qed.

Lemma get_elem_of (o : object) (k : string) :
  k ∈ keys o → get o k = Num (price o k).
Proof.
  intros H. apply own_elem_of in H as [q Hq].
  unfold get, price. by rewrite Hq.
Qed.


(** ** The sum of the checked add-ons *)

Lemma sum_prices_perm (o : object) (ks ks' : list string) :
  ks ≡ₚ ks' → (sum_prices o ks == sum_prices o ks')%Q.
Proof.
  induction 1 as [|k ks ks' _ IH|k k' ks|ks1 ks2 ks3 _ IH1 _ IH2]; simpl.
  - reflexivity.
  - by rewrite IH.
  - ring.
  - by rewrite IH1.
Qed.

Lemma filter_keys_elements (ks : list string) (sel : gset string) :
  NoDup ks → sel ⊆ list_to_set ks →
  filter (λ k, k ∈ sel) ks ≡ₚ elements sel.
Proof.
  intros Hnd Hsub. apply NoDup_Permutation.
  - by apply NoDup_filter.
  - apply NoDup_elements.
  - intros k. rewrite list_elem_of_filter, elem_of_elements.
    split; [tauto|]. intros Hk. split; [done|].
    apply Hsub in Hk. by apply elem_of_list_to_set in Hk.
Qed.

(** The [forEach] over a list of keys of the table adds the prices of
    those of them that are checked. *)
Lemma forEach_sum (r : RateTable) (i : inputs.t) (ks : list string) (acc : Q) :
  (∀ k, k ∈ ks → k ∈ keys (addOnPrices r)) →
  ∃ q, fold_left (addOn_step r i) ks (Num acc) = Num q ∧
       (q == acc + sum_prices (addOnPrices r)
                     (filter (λ k, k ∈ inputs.checked i) ks))%Q.
Proof.
  revert acc. induction ks as [|k ks IH]; intros acc Hks; simpl.
  - exists acc. split; [done|]. ring.
  - unfold addOn_step at 2. rewrite filter_cons.
    assert (Hk : k ∈ keys (addOnPrices r)) by (apply Hks; left).
    assert (Hks' : ∀ k', k' ∈ ks → k' ∈ keys (addOnPrices r))
      by (intros k' Hk'; apply Hks; by right).
    case_bool_decide as Hsel.
    + rewrite decide_True by done.
      rewrite (get_elem_of _ _ Hk). cbn [add arith ToNumber].
      destruct (IH (acc + price (addOnPrices r) k)%Q Hks') as (q & Hq & Heq).
      exists q. split; [done|]. rewrite Heq. simpl. ring.
    + rewrite decide_False by done. by apply IH.
Qed.

(** For a well-formed table that covers the checked ids, [addOnsTotal] is
    the sum over the set of checked ids. *)
Lemma addOnsTotal_selected_sum (r : RateTable) (i : inputs.t) :
  wf (addOnPrices r) →
  inputs.checked i ⊆ list_to_set (keys (addOnPrices r)) →
  is_num (locals.addOnsTotal (compute r i))
         (selected_sum (addOnPrices r) (inputs.checked i)).
Proof.
  intros Hwf Hsub. cbn [compute locals.addOnsTotal].
  destruct (forEach_sum r i (keys (addOnPrices r)) 0%Q) as (q & -> & Heq);
    [done|].
  simpl. rewrite Heq. unfold selected_sum.
  rewrite (sum_prices_perm _ _ _ (filter_keys_elements _ _ Hwf Hsub)). ring.
Qed.

(** ** The locals of [calculate] on a covered configuration *)

Section Covered.
Variable r : RateTable.
Variable i : inputs.t.
Hypothesis Hvalid : valid r i.

Lemma compute_valid :
  let b := price (basePrices r) (inputs.propertyType i) in
  let s := price (bathroomPrices r) (inputs.bathrooms i) in
  let a := price (serviceAdjustments r) (inputs.serviceType i) in
  let f := price (frequencyDiscounts r) (inputs.frequency i) in
  ∃ A : Q,
    (A == sum_prices (addOnPrices r)
            (filter (λ k, k ∈ inputs.checked i) (keys (addOnPrices r))))%Q ∧
    compute r i =
      locals.mk (Num (b + s + a + A - (b + s + a) * f)) (Num a) (Num f)
                (Num A) (Num (b + s + a)) (Num ((b + s + a) * f)).
Proof using Hvalid.
  intros b s a f.
  destruct Hvalid as (Hp & Hb & Hs & Hf & _).
  destruct (forEach_sum r i (keys (addOnPrices r)) 0%Q) as (A & HA & Heq);
    [done|].
  exists A. split; [rewrite Heq; ring|].
  unfold compute. rewrite HA.
  rewrite (get_elem_of _ _ Hp), (get_elem_of _ _ Hb),
          (get_elem_of _ _ Hs), (get_elem_of _ _ Hf).
  reflexivity.
Qed.

Lemma quote_valid :
  let b := price (basePrices r) (inputs.propertyType i) in
  let s := price (bathroomPrices r) (inputs.bathrooms i) in
  let a := price (serviceAdjustments r) (inputs.serviceType i) in
  let f := price (frequencyDiscounts r) (inputs.frequency i) in
  ∃ A : Q,
    (A == sum_prices (addOnPrices r)
            (filter (λ k, k ∈ inputs.checked i) (keys (addOnPrices r))))%Q ∧
    quote r i =
      display.mk
        (Num (inject_Z (Qfloor (b + s + a + A - (b + s + a) * f + (1 # 2)))))
        (Num (b + s))
        (Qle_bool 0 a, Num a)
        (Num (inject_Z (Qfloor ((b + s + a) * f + (1 # 2)))))
        (Num A).
Proof using Hvalid.
  intros b s a f.
  destruct compute_valid as (A & HA & Heq). exists A. split; [done|].
  unfold quote, calculate. rewrite Heq.
  destruct Hvalid as (Hp & Hb & _).
  unfold update_display.
  rewrite (get_elem_of _ _ Hp), (get_elem_of _ _ Hb). reflexivity.
Qed.

End Covered.

(** ** Rounding *)

Lemma inject_Z_lt_succ (n z : Z) :
  (inject_Z n < inject_Z z + 1)%Q → (n <= z)%Z.
Proof.
  intros H. apply Z.lt_succ_r. rewrite Zlt_Qlt.
  unfold Z.succ. rewrite inject_Z_plus. exact H.
Qed.

Lemma Qfloor_unique (x : Q) (n : Z) :
  (inject_Z n <= x)%Q → (x < inject_Z n + 1)%Q → Qfloor x = n.
Proof.
  intros Hle Hlt. apply Z.le_antisymm.
  - apply inject_Z_lt_succ. pose proof (Qfloor_le x). lra.
  - rewrite <- (Qfloor_Z n). by apply Qfloor_resp_le.
Qed.

Lemma Qfloor_plus_Z (x : Q) (z : Z) :
  Qfloor (x + inject_Z z) = (Qfloor x + z)%Z.
Proof.
  apply Qfloor_unique; rewrite inject_Z_plus.
  - pose proof (Qfloor_le x). lra.
  - pose proof (Qlt_floor x) as H. rewrite inject_Z_plus in H.
    change (inject_Z 1) with 1%Q in H. lra.
Qed.

Lemma round_bounds (x : Q) :
  (inject_Z (Qfloor (x + (1 # 2))) - (1 # 2) <= x)%Q ∧
  (x < inject_Z (Qfloor (x + (1 # 2))) + (1 # 2))%Q.
Proof.
  pose proof (Qfloor_le (x + (1 # 2))) as Hle.
  pose proof (Qlt_floor (x + (1 # 2))) as Hlt.
  rewrite inject_Z_plus in Hlt. change (inject_Z 1) with 1%Q in Hlt.
  split; lra.
Qed.

Lemma Qabs_cases (t : Q) :
  (0 <= t ∧ Qabs t == t)%Q ∨ (t <= 0 ∧ Qabs t == - t)%Q.
Proof.
  destruct (Qlt_le_dec t 0) as [H|H].
  - right. split; [lra|]. apply Qabs_neg. lra.
  - left. split; [done|]. by apply Qabs_pos.
Qed.

Lemma nearest_bounds (x : Q) (n : Z) :
  nearest x n →
  (inject_Z n - (1 # 2) <= x)%Q ∧ (x <= inject_Z n + (1 # 2))%Q.
Proof.
  intros Hn.
  pose proof (Hn (Qfloor (x + (1 # 2)))) as H.
  destruct (round_bounds x) as [H1 H2].
  destruct (Qabs_cases (x - inject_Z n)) as [[? Hv]|[? Hv]];
    rewrite Hv in H;
    destruct (Qabs_cases (x - inject_Z (Qfloor (x + (1 # 2)))))
      as [[? Hw]|[? Hw]];
    rewrite Hw in H; split; lra.
Qed.

Lemma round_nearest (x : Q) : nearest x (Qfloor (x + (1 # 2))).
Proof.
  intros n. destruct (round_bounds x) as [H1 H2].
  set (z := Qfloor (x + (1 # 2))) in *.
  assert (Hcases : (n + 1 <= z)%Z ∨ n = z ∨ (z + 1 <= n)%Z) by lia.
  destruct Hcases as [Hn|[->|Hn]]; [|apply Qle_refl|].
  - rewrite Zle_Qle, inject_Z_plus in Hn.
    change (inject_Z 1) with 1%Q in Hn.
    destruct (Qabs_cases (x - inject_Z z)) as [[? ->]|[? ->]];
      destruct (Qabs_cases (x - inject_Z n)) as [[? ->]|[? ->]]; lra.
  - rewrite Zle_Qle, inject_Z_plus in Hn.
    change (inject_Z 1) with 1%Q in Hn.
    destruct (Qabs_cases (x - inject_Z z)) as [[? ->]|[? ->]];
      destruct (Qabs_cases (x - inject_Z n)) as [[? ->]|[? ->]]; lra.
Qed.

(** [Math.round] rounds half up. *)
Lemma round_is_half_up (x : Q) : round_half_up x (Qfloor (x + (1 # 2))).
Proof.
  split; [apply round_nearest|].
  intros n Hn. apply nearest_bounds in Hn as [Hn _].
  destruct (round_bounds x) as [_ H2].
  apply inject_Z_lt_succ. lra.
Qed.

(** On a value that is not negative, it rounds half away from zero. *)
Lemma round_is_half_away (x : Q) :
  (0 <= x)%Q → round_half_away x (Qfloor (x + (1 # 2))).
Proof.
  intros Hx. split; [apply round_nearest|].
  intros n Hn.
  destruct (round_is_half_up x) as [_ Hup]. pose proof (Hup n Hn) as Hle.
  apply nearest_bounds in Hn as [_ Hn].
  assert (0 <= n)%Z.
  { apply inject_Z_lt_succ. change (inject_Z 0) with 0%Q. lra. }
  lia.
Qed.

(** ** The defining equations *)

(** C1. On every configuration whose keys the tables all have, the values
    [calculate] computes satisfy the equations of the algorithm:
    [basePrice] is the base of the property type plus the surcharge of the
    bathroom count, [subtotalBeforeAddOns] is [basePrice] plus the service
    adjustment, [discountAmount] is [subtotalBeforeAddOns] times the rate
    of the frequency (no add-on enters it), [addOnsTotal] is the sum of the
    prices of the selected add-ons, and [rawTotal] is
    [subtotalBeforeAddOns + addOnsTotal - discountAmount]. *)
Theorem C1_defining_equations (r : RateTable) (i : inputs.t) :
  wf (addOnPrices r) → valid r i →
  ∃ base surcharge adjustment rate : Q,
    own (basePrices r) (inputs.propertyType i) = Some base ∧
    own (bathroomPrices r) (inputs.bathrooms i) = Some surcharge ∧
    own (serviceAdjustments r) (inputs.serviceType i) = Some adjustment ∧
    own (frequencyDiscounts r) (inputs.frequency i) = Some rate ∧
    let basePrice := (base + surcharge)%Q in
    let subtotalBeforeAddOns := (basePrice + adjustment)%Q in
    let discountAmount := (subtotalBeforeAddOns * rate)%Q in
    let addOnsTotal := selected_sum (addOnPrices r) (inputs.checked i) in
    let rawTotal := (subtotalBeforeAddOns + addOnsTotal - discountAmount)%Q in
    is_num (display.base (quote r i)) basePrice ∧
    is_num (locals.discountable (compute r i)) subtotalBeforeAddOns ∧
    is_num (locals.discount (compute r i)) discountAmount ∧
    is_num (locals.addOnsTotal (compute r i)) addOnsTotal ∧
    is_num (locals.total (compute r i)) rawTotal.
Proof.
  intros Hwf Hvalid.
  pose proof (addOnsTotal_selected_sum r i Hwf (proj2 (proj2 (proj2 (proj2 Hvalid)))))
    as Hsum.
  destruct (quote_valid r i Hvalid) as (A' & _ & Hq).
  destruct (compute_valid r i Hvalid) as (A & _ & Hc).
  rewrite Hq. rewrite Hc in Hsum |- *. cbn in Hsum.
  destruct Hvalid as (Hp & Hb & Hs & Hf & _).
  apply own_elem_of in Hp as [base Hp], Hb as [surcharge Hb],
    Hs as [adjustment Hs], Hf as [rate Hf].
  exists base, surcharge, adjustment, rate.
  unfold price. rewrite Hp, Hb, Hs, Hf. cbn.
  repeat split; try reflexivity; try done.
  rewrite Hsum. reflexivity.
Qed.

Lemma C1_defining_equations_witness :
  wf (addOnPrices builtin) ∧ valid builtin scenarioB ∧
  ∃ base surcharge adjustment rate : Q,
    own (basePrices builtin) "2bed" = Some base ∧
    own (bathroomPrices builtin) "2" = Some surcharge ∧
    own (serviceAdjustments builtin) "deep" = Some adjustment ∧
    own (frequencyDiscounts builtin) "weekly" = Some rate ∧
    is_num (display.base (quote builtin scenarioB)) (base + surcharge) ∧
    is_num (locals.discountable (compute builtin scenarioB))
           (base + surcharge + adjustment) ∧
    is_num (locals.discount (compute builtin scenarioB))
           ((base + surcharge + adjustment) * rate) ∧
    is_num (locals.addOnsTotal (compute builtin scenarioB))
           (selected_sum (addOnPrices builtin) {["windows"; "pets"]}) ∧
    is_num (locals.total (compute builtin scenarioB))
           (base + surcharge + adjustment
            + selected_sum (addOnPrices builtin) {["windows"; "pets"]}
            - (base + surcharge + adjustment) * rate).
Proof.
  assert (Hwf : wf (addOnPrices builtin))
    by (apply (bool_decide_unpack _); vm_compute; exact I).
  assert (Hvalid : valid builtin scenarioB)
    by (apply (bool_decide_unpack _); vm_compute; exact I).
  split; [exact Hwf|]. split; [exact Hvalid|].
  exact (C1_defining_equations builtin scenarioB Hwf Hvalid).
Defined.

(** ** A key no table has *)






(** An id that is checked and is no key of [addOnPrices] is never read:
    the [forEach] visits the keys of the table. *)
Lemma unlisted_addOn_ignored (r : RateTable) (i : inputs.t) (k : string) :
  k ∉ keys (addOnPrices r) → compute r (check k i) = compute r i.
Proof.
  intros Hk. unfold compute. cbn [check inputs.propertyType inputs.bathrooms
    inputs.serviceType inputs.frequency].
  assert (Hfold : ∀ ks acc, (∀ k', k' ∈ ks → k' ≠ k) →
    fold_left (addOn_step r (check k i)) ks acc
    = fold_left (addOn_step r i) ks acc).
  { induction ks as [|k' ks IH]; intros acc Hks; [done|]. simpl.
    rewrite IH by (intros; apply Hks; by right). f_equal.
    unfold addOn_step. cbn [check inputs.checked].
    assert (Hne : k' ≠ k) by (apply Hks; left).
    assert (Hiff : k' ∈ {[k]} ∪ inputs.checked i ↔ k' ∈ inputs.checked i).
    { rewrite elem_of_union, elem_of_singleton. tauto. }
    by rewrite (bool_decide_ext _ _ Hiff). }
  rewrite Hfold; [done|]. intros k' Hk' ->. done.
Qed.

(** ** What is displayed *)

(** C3. On every covered configuration the total displayed is the
    unrounded [rawTotal], which no rounded value enters, rounded once to
    the nearest integer, half up, which for a value that is not negative
    is half away from zero; the discount displayed is the unrounded
    discount rounded on its own in the same way; base price, service
    adjustment and add-on total are displayed as computed. *)
Theorem C3_rounding (r : RateTable) (i : inputs.t) :
  valid r i →
  ∃ (subtotal addOnsTotal discountAmount rawTotal : Q) (total shown : Z),
    locals.discountable (compute r i) = Num subtotal ∧
    locals.addOnsTotal (compute r i) = Num addOnsTotal ∧
    locals.discount (compute r i) = Num discountAmount ∧
    locals.total (compute r i) = Num rawTotal ∧
    (discountAmount ==
       subtotal * price (frequencyDiscounts r) (inputs.frequency i))%Q ∧
    (rawTotal == subtotal + addOnsTotal - discountAmount)%Q ∧
    display.total (quote r i) = Num (inject_Z total) ∧
    round_half_up rawTotal total ∧
    ((0 <= rawTotal)%Q → round_half_away rawTotal total) ∧
    display.frequency (quote r i) = Num (inject_Z shown) ∧
    round_half_up discountAmount shown ∧
    display.base (quote r i) =
      Num (price (basePrices r) (inputs.propertyType i)
           + price (bathroomPrices r) (inputs.bathrooms i)) ∧
    snd (display.service (quote r i)) =
      Num (price (serviceAdjustments r) (inputs.serviceType i)) ∧
    display.addOns (quote r i) = Num addOnsTotal.
Proof.
  intros Hvalid.
  destruct (compute_valid r i Hvalid) as (A & _ & Hc).
  destruct (quote_valid r i Hvalid) as (A' & _ & Hq).
  assert (A' = A) as ->.
  { assert (H : display.addOns (quote r i) = locals.addOnsTotal (compute r i))
      by reflexivity.
    rewrite Hq, Hc in H. by injection H. }
  rewrite Hc, Hq. cbn.
  eexists _, A, _, _, _, _.
  repeat split; try reflexivity.
  - apply round_nearest.
  - apply round_is_half_up.
  - apply round_nearest.
  - by apply round_is_half_away.
  - apply round_nearest.
  - apply round_is_half_up.
Qed.

Lemma C3_rounding_witness :
  valid builtin scenarioC ∧
  ∃ (subtotal addOnsTotal discountAmount rawTotal : Q) (total shown : Z),
    locals.discountable (compute builtin scenarioC) = Num subtotal ∧
    locals.addOnsTotal (compute builtin scenarioC) = Num addOnsTotal ∧
    locals.discount (compute builtin scenarioC) = Num discountAmount ∧
    locals.total (compute builtin scenarioC) = Num rawTotal ∧
    (discountAmount ==
       subtotal * price (frequencyDiscounts builtin) "monthly")%Q ∧
    (rawTotal == subtotal + addOnsTotal - discountAmount)%Q ∧
    display.total (quote builtin scenarioC) = Num (inject_Z total) ∧
    round_half_up rawTotal total ∧
    ((0 <= rawTotal)%Q → round_half_away rawTotal total) ∧
    display.frequency (quote builtin scenarioC) = Num (inject_Z shown) ∧
    round_half_up discountAmount shown ∧
    display.base (quote builtin scenarioC) =
      Num (price (basePrices builtin) "studio"
           + price (bathroomPrices builtin) "1") ∧
    snd (display.service (quote builtin scenarioC)) =
      Num (price (serviceAdjustments builtin) "move") ∧
    display.addOns (quote builtin scenarioC) = Num addOnsTotal.
Proof.
  assert (Hvalid : valid builtin scenarioC)
    by (apply (bool_decide_unpack _); vm_compute; exact I).
  split; [exact Hvalid|].
  exact (C3_rounding builtin scenarioC Hvalid).
Defined.

(** C4. Two configurations with the same property type, bathroom count,
    service type and frequency are shown the same discount, whatever
    add-ons each selects; the unrounded discounts are equal too. *)
Theorem C4_discount_ignores_addOns (r : RateTable)
    (propertyType bathrooms serviceType frequency : string)
    (sel1 sel2 : gset string) :
  let i1 := inputs.mk propertyType bathrooms serviceType frequency sel1 in
  let i2 := inputs.mk propertyType bathrooms serviceType frequency sel2 in
  display.frequency (quote r i1) = display.frequency (quote r i2) ∧
  locals.discount (compute r i1) = locals.discount (compute r i2).
Proof. split; reflexivity. Qed.

(** ** Determinism *)


(** ** The two worked scenarios *)


(** The discount of 19.9 is shown rounded. *)
Lemma scenario_B_display :
  quote builtin scenarioB =
    display.mk (Num 224) (Num 119) (true, Num 80) (Num 20) (Num 45).
Proof. vm_compute. reflexivity. Qed.

(** C7. With the built-in tables, a one-bathroom studio move-out clean
    every month with the fridge has [subtotalBeforeAddOns = 249],
    [discountAmount = 7.47], [addOnsTotal = 25], [rawTotal = 266.53] and
    [total = 267]. *)
Theorem C7_scenario_C :
  is_num (locals.discountable (compute builtin scenarioC)) 249 ∧
  is_num (locals.discount (compute builtin scenarioC)) 7.47 ∧
  is_num (locals.addOnsTotal (compute builtin scenarioC)) 25 ∧
  is_num (locals.total (compute builtin scenarioC)) 266.53 ∧
  display.addOns (quote builtin scenarioC) = Num 25 ∧
  display.total (quote builtin scenarioC) = Num 267.
Proof. vm_compute. repeat split. Qed.

Lemma scenario_C_display :
  quote builtin scenarioC =
    display.mk (Num 267) (Num 69) (true, Num 180) (Num 7) (Num 25).
Proof. vm_compute. reflexivity. Qed.

(** Scenario A of the specification. *)
Lemma scenario_A_display :
  quote builtin (inputs.mk "1bed" "1" "standard" "one-time" ∅) =
    display.mk (Num 79) (Num 79) (true, Num 0) (Num 0) (Num 0).
Proof. vm_compute. reflexivity. Qed.

(** ** Tables of a given kind *)

Lemma own_every_price (P : Q → Prop) (o : object) (k : string) (p : Q) :
  every_price P o → own o k = Some p → P p.
Proof.
  unfold every_price. induction 1 as [|[k' q] o Hq _ IH]; simpl; [done|].
  destruct (String.eqb k k'); [|done]. intros [= <-]. exact Hq.
Qed.

Lemma price_every_price (P : Q → Prop) (o : object) (k : string) :
  every_price P o → P 0%Q → P (price o k).
Proof.
  intros Ho H0. unfold price. destruct (own o k) as [p|] eqn:Hk; [|done].
  by eapply own_every_price.
Qed.

Lemma sum_prices_nonneg (o : object) (ks : list string) :
  every_price nonneg o → (0 <= sum_prices o ks)%Q.
Proof.
  intros Ho. induction ks as [|k ks IH]; simpl; [lra|].
  assert (nonneg (price o k)) as Hk
    by (apply price_every_price; [done | unfold nonneg; lra]).
  unfold nonneg in Hk. lra.
Qed.

Lemma sum_prices_integral (o : object) (ks : list string) :
  every_price integral o → ∃ n : Z, (sum_prices o ks == inject_Z n)%Q.
Proof.
  intros Ho. induction ks as [|k ks [n IH]]; simpl.
  - by exists 0%Z.
  - assert (integral (price o k)) as Hk
      by (apply price_every_price; [done | reflexivity]).
    exists (Qfloor (price o k) + n)%Z.
    rewrite inject_Z_plus, <- IH. unfold integral in Hk. by rewrite <- Hk.
Qed.

(** ** The total is not negative *)

(** With prices that are not negative and rates in [0, 1) the unrounded
    total is not negative. *)
Lemma rawTotal_nonneg (r : RateTable) (i : inputs.t) :
  valid r i →
  every_price nonneg (basePrices r) →
  every_price nonneg (bathroomPrices r) →
  every_price nonneg (serviceAdjustments r) →
  every_price nonneg (addOnPrices r) →
  every_price fraction (frequencyDiscounts r) →
  ∃ rawTotal : Q,
    locals.total (compute r i) = Num rawTotal ∧ (0 <= rawTotal)%Q.
Proof.
  intros Hvalid Hb Hs Ha Hp Hf.
  destruct (compute_valid r i Hvalid) as (A & HA & ->).
  cbn [locals.total].
  eexists. split; [reflexivity|].
  assert (H0 : nonneg 0) by (unfold nonneg; lra).
  pose proof (price_every_price _ _ (inputs.propertyType i) Hb H0) as Hb'.
  pose proof (price_every_price _ _ (inputs.bathrooms i) Hs H0) as Hs'.
  pose proof (price_every_price _ _ (inputs.serviceType i) Ha H0) as Ha'.
  assert (fraction 0) as Hf0 by (unfold fraction; lra).
  pose proof (price_every_price _ _ (inputs.frequency i) Hf Hf0) as [Hf1 Hf2].
  pose proof (sum_prices_nonneg (addOnPrices r)
    (filter (λ k, k ∈ inputs.checked i) (keys (addOnPrices r))) Hp) as HA'.
  rewrite <- HA in HA'. unfold nonneg in *.
  set (b := price (basePrices r) _) in *.
  set (s := price (bathroomPrices r) _) in *.
  set (a := price (serviceAdjustments r) _) in *.
  set (f := price (frequencyDiscounts r) _) in *.
  assert (Hd : ((b + s + a) * f <= b + s + a)%Q) by nra.
  lra.
Qed.

(** C8. When every base price, bathroom surcharge, service adjustment
    and add-on price of the tables is at least zero and every discount
    rate is at least zero and less than one, the total displayed for a
    covered configuration is at least zero. *)
Theorem C8_total_nonneg (r : RateTable) (i : inputs.t) :
  valid r i →
  every_price nonneg (basePrices r) →
  every_price nonneg (bathroomPrices r) →
  every_price nonneg (serviceAdjustments r) →
  every_price nonneg (addOnPrices r) →
  every_price fraction (frequencyDiscounts r) →
  ∃ z : Z, display.total (quote r i) = Num (inject_Z z) ∧ (0 <= z)%Z.
Proof.
  intros Hvalid Hb Hs Ha Hp Hf.
  destruct (rawTotal_nonneg r i Hvalid Hb Hs Ha Hp Hf) as (raw & Hraw & Hle).
  assert (Hq : display.total (quote r i) = Math_round (locals.total (compute r i)))
    by reflexivity.
  rewrite Hq, Hraw. cbn [Math_round ToNumber].
  eexists. split; [reflexivity|].
  change 0%Z with (Qfloor 0). apply Qfloor_resp_le. lra.
Qed.

Lemma C8_total_nonneg_witness :
  valid builtin scenarioB ∧
  every_price nonneg (basePrices builtin) ∧
  every_price nonneg (bathroomPrices builtin) ∧
  every_price nonneg (serviceAdjustments builtin) ∧
  every_price nonneg (addOnPrices builtin) ∧
  every_price fraction (frequencyDiscounts builtin) ∧
  ∃ z : Z,
    display.total (quote builtin scenarioB) = Num (inject_Z z) ∧ (0 <= z)%Z.
Proof.
  assert (Hvalid : valid builtin scenarioB)
    by (apply (bool_decide_unpack _); vm_compute; exact I).
  assert (Hb : every_price nonneg (basePrices builtin))
    by (apply (bool_decide_unpack _); vm_compute; exact I).
  assert (Hs : every_price nonneg (bathroomPrices builtin))
    by (apply (bool_decide_unpack _); vm_compute; exact I).
  assert (Ha : every_price nonneg (serviceAdjustments builtin))
    by (apply (bool_decide_unpack _); vm_compute; exact I).
  assert (Hp : every_price nonneg (addOnPrices builtin))
    by (apply (bool_decide_unpack _); vm_compute; exact I).
  assert (Hf : every_price fraction (frequencyDiscounts builtin))
    by (apply (bool_decide_unpack _); vm_compute; exact I).
  repeat (split; [assumption|]).
  exact (C8_total_nonneg builtin scenarioB Hvalid Hb Hs Ha Hp Hf).
Defined.

(** ** The components displayed and the total displayed *)

Lemma quote_valid_selected (r : RateTable) (i : inputs.t) :
  wf (addOnPrices r) → valid r i →
  ∃ A : Q,
    (A == selected_sum (addOnPrices r) (inputs.checked i))%Q ∧
    quote r i =
      let X := (price (basePrices r) (inputs.propertyType i)
                + price (bathroomPrices r) (inputs.bathrooms i)
                + price (serviceAdjustments r) (inputs.serviceType i))%Q in
      let f := price (frequencyDiscounts r) (inputs.frequency i) in
      display.mk
        (Num (inject_Z (Qfloor (X + A - X * f + (1 # 2)))))
        (Num (price (basePrices r) (inputs.propertyType i)
              + price (bathroomPrices r) (inputs.bathrooms i)))
        (Qle_bool 0 (price (serviceAdjustments r) (inputs.serviceType i)),
         Num (price (serviceAdjustments r) (inputs.serviceType i)))
        (Num (inject_Z (Qfloor (X * f + (1 # 2)))))
        (Num A).
Proof.
  intros Hwf Hvalid.
  destruct (quote_valid r i Hvalid) as (A & HA & Hq).
  exists A. split; [|exact Hq].
  rewrite HA. apply sum_prices_perm, filter_keys_elements; [done|].
  apply Hvalid.
Qed.



Lemma gap_integral_addOns (r : RateTable) (i : inputs.t) :
  every_price integral (addOnPrices r) → valid r i →
  is_num (gap (quote r i))
    (scalar_gap r (inputs.propertyType i) (inputs.bathrooms i)
       (inputs.serviceType i) (inputs.frequency i)).
Proof.
  intros Hint Hvalid.
  destruct (quote_valid r i Hvalid) as (A & HA & ->).
  destruct (sum_prices_integral (addOnPrices r)
    (filter (λ k, k ∈ inputs.checked i) (keys (addOnPrices r))) Hint)
    as [n Hn].
  rewrite Hn in HA. clear Hn.
  cbn [gap itemized display.total display.base display.service
       display.frequency display.addOns snd sub add arith ToNumber is_num].
  unfold scalar_gap.
  set (b := price (basePrices r) _).
  set (s := price (bathroomPrices r) _).
  set (a := price (serviceAdjustments r) _).
  set (f := price (frequencyDiscounts r) _).
  assert (H : (b + s + a + A - (b + s + a) * f + (1 # 2)
               == (b + s + a - (b + s + a) * f + (1 # 2)) + inject_Z n)%Q)
    by (rewrite HA; ring).
  rewrite (Qfloor_comp _ _ H), Qfloor_plus_Z, inject_Z_plus, HA. ring.
Qed.

Lemma builtin_scalar_gap :
  Forall (λ pt, Forall (λ bt, Forall (λ st, Forall (λ fr,
    (scalar_gap builtin pt bt st fr == 0)%Q)
    (keys (frequencyDiscounts builtin)))
    (keys (serviceAdjustments builtin)))
    (keys (bathroomPrices builtin)))
    (keys (basePrices builtin)).
Proof. apply (bool_decide_unpack _). vm_compute. exact I. Qed.

(** With the built-in tables no discount is half a unit: the components
    displayed always add up to the total displayed. *)
Lemma builtin_gap_zero (i : inputs.t) :
  valid builtin i → is_num (gap (quote builtin i)) 0.
Proof.
  intros Hvalid.
  assert (Hint : every_price integral (addOnPrices builtin))
    by (apply (bool_decide_unpack _); vm_compute; exact I).
  pose proof (gap_integral_addOns builtin i Hint Hvalid) as Hgap.
  destruct Hvalid as (Hp & Hb & Hs & Hf & _).
  pose proof builtin_scalar_gap as H.
  rewrite Forall_forall in H. specialize (H _ Hp).
  rewrite Forall_forall in H. specialize (H _ Hb).
  rewrite Forall_forall in H. specialize (H _ Hs).
  rewrite Forall_forall in H. specialize (H _ Hf).
  destruct (gap (quote builtin i)); try done.
  cbn [is_num] in *. by rewrite Hgap.
Qed.

(** ** One more add-on *)

Lemma valid_check (r : RateTable) (i : inputs.t) (k : string) :
  valid r i → k ∈ keys (addOnPrices r) → valid r (check k i).
Proof.
  intros (Hp & Hb & Hs & Hf & Hsub) Hk.
  repeat split; try done. cbn [check inputs.checked].
  apply union_subseteq. split; [|done].
  apply singleton_subseteq_l. by apply elem_of_list_to_set.
Qed.

Lemma selected_sum_check (o : object) (sel : gset string) (k : string) :
  k ∉ sel →
  (selected_sum o ({[k]} ∪ sel) == selected_sum o sel + price o k)%Q.
Proof.
  intros Hk. unfold selected_sum.
  rewrite (sum_prices_perm _ _ _ (elements_union_singleton sel k Hk)).
  simpl. ring.
Qed.

(** Checking one more add-on of a well-formed table adds its price to
    [addOnsTotal]; when the price is a whole number it adds it to the
    total displayed as well. *)
Lemma addOn_added (r : RateTable) (i : inputs.t) (k : string) (p : Q) :
  wf (addOnPrices r) → valid r i →
  own (addOnPrices r) k = Some p → k ∉ inputs.checked i →
  ∃ A A' : Q,
    display.addOns (quote r i) = Num A ∧
    display.addOns (quote r (check k i)) = Num A' ∧
    (A' == A + p)%Q ∧
    ∀ z : Z, (p == inject_Z z)%Q →
      ∃ t : Z, display.total (quote r i) = Num (inject_Z t) ∧
               display.total (quote r (check k i)) = Num (inject_Z (t + z)).
Proof.
  intros Hwf Hvalid Hown Hk.
  assert (Hin : k ∈ keys (addOnPrices r)).
  { destruct (decide (k ∈ keys (addOnPrices r))) as [|Hn]; [done|].
    apply own_not_elem_of in Hn. congruence. }
  destruct (quote_valid_selected r i Hwf Hvalid) as (A & HA & ->).
  destruct (quote_valid_selected r (check k i) Hwf (valid_check r i k Hvalid Hin))
    as (A' & HA' & ->).
  cbn [check inputs.checked inputs.propertyType inputs.bathrooms
       inputs.serviceType inputs.frequency] in *.
  rewrite (selected_sum_check _ _ _ Hk) in HA'.
  assert (Hp : price (addOnPrices r) k = p) by (unfold price; by rewrite Hown).
  rewrite Hp, <- HA in HA'.
  exists A, A'. cbn [display.addOns display.total].
  repeat split; [done|]. intros z Hz.
  eexists. split; [reflexivity|]. f_equal. f_equal.
  rewrite <- Qfloor_plus_Z. apply Qfloor_comp. rewrite HA', Hz. ring.
Qed.

(** C5. With the built-in tables, checking an add-on that was not
    checked raises [addOnsTotal] by the listed price of the add-on, which
    is more than zero, and raises the total displayed by exactly that
    price. *)
Theorem C5_addOn_monotone (i : inputs.t) (k : string) :
  valid builtin i → k ∈ keys (addOnPrices builtin) → k ∉ inputs.checked i →
  ∃ (p A A' : Q) (t t' : Z),
    own (addOnPrices builtin) k = Some p ∧
    display.addOns (quote builtin i) = Num A ∧
    display.addOns (quote builtin (check k i)) = Num A' ∧
    (A < A')%Q ∧ (A' == A + p)%Q ∧
    display.total (quote builtin i) = Num (inject_Z t) ∧
    display.total (quote builtin (check k i)) = Num (inject_Z t') ∧
    (inject_Z t' == inject_Z t + p)%Q.
Proof.
  intros Hvalid Hin Hk.
  assert (Hwf : wf (addOnPrices builtin))
    by (apply (bool_decide_unpack _); vm_compute; exact I).
  assert (Hint : every_price integral (addOnPrices builtin))
    by (apply (bool_decide_unpack _); vm_compute; exact I).
  assert (Hpos : every_price above_zero (addOnPrices builtin))
    by (apply (bool_decide_unpack _); vm_compute; exact I).
  destruct (own_elem_of _ _ Hin) as [p Hown].
  pose proof (own_every_price _ _ _ _ Hint Hown) as Hp.
  pose proof (own_every_price _ _ _ _ Hpos Hown) as Hp0.
  unfold integral in Hp. unfold above_zero in Hp0.
  destruct (addOn_added builtin i k p Hwf Hvalid Hown Hk)
    as (A & A' & HA & HA' & Hsum & Htot).
  destruct (Htot _ Hp) as (t & Ht & Ht').
  exists p, A, A', t, (t + Qfloor p)%Z.
  repeat split; try done.
  - lra.
  - rewrite inject_Z_plus, <- Hp. reflexivity.
Qed.

Lemma C5_addOn_monotone_witness :
  valid builtin scenarioC ∧
  "pets" ∈ keys (addOnPrices builtin) ∧
  ("pets" ∉ inputs.checked scenarioC) ∧
  ∃ (p A A' : Q) (t t' : Z),
    own (addOnPrices builtin) "pets" = Some p ∧
    display.addOns (quote builtin scenarioC) = Num A ∧
    display.addOns (quote builtin (check "pets" scenarioC)) = Num A' ∧
    (A < A')%Q ∧ (A' == A + p)%Q ∧
    display.total (quote builtin scenarioC) = Num (inject_Z t) ∧
    display.total (quote builtin (check "pets" scenarioC))
      = Num (inject_Z t') ∧
    (inject_Z t' == inject_Z t + p)%Q.
Proof.
  assert (Hvalid : valid builtin scenarioC)
    by (apply (bool_decide_unpack _); vm_compute; exact I).
  assert (Hin : "pets" ∈ keys (addOnPrices builtin))
    by (apply (bool_decide_unpack _); vm_compute; exact I).
  assert (Hk : "pets" ∉ inputs.checked scenarioC)
    by (apply (bool_decide_unpack _); vm_compute; exact I).
  split; [exact Hvalid|]. split; [exact Hin|]. split; [exact Hk|].
  exact (C5_addOn_monotone scenarioC "pets" Hvalid Hin Hk).
Defined.

(** With a price that is not a whole number the total displayed moves by
    a whole number all the same: here by 1 for a price of one half. *)
Lemma fractional_price_total :
  let r := {| basePrices := basePrices builtin;
              bathroomPrices := bathroomPrices builtin;
              serviceAdjustments := serviceAdjustments builtin;
              frequencyDiscounts := frequencyDiscounts builtin;
              addOnPrices := [("pets", 0.5%Q)] |} in
  let i := inputs.mk "1bed" "1" "standard" "one-time" ∅ in
  display.total (quote r i) = Num 79 ∧
  display.total (quote r (check "pets" i)) = Num 80.
Proof. vm_compute. split; reflexivity. Qed.

(** ** Binary64 against exact arithmetic *)

(** [Math.round] on binary64 numbers is the floor of the exact value plus
    one half. *)
Lemma round_Z_exact (x : float) :
  Binary64.round_Z x =
    match Binary64.exact x with
    | Some q => Some (Qfloor (q + (1 # 2)))
    | None => None
    end.
Proof.
  unfold Binary64.round_Z, Binary64.exact.
  destruct (Prim2SF x) as [?| | |s m e]; try reflexivity.
  f_equal. set (n := if s then Z.neg m else Z.pos m).
  destruct e as [|p|p].
  - rewrite Z.shiftl_0_r, Z.pow_0_r, Z.mul_1_r.
    symmetry. apply Qfloor_unique; lra.
  - rewrite Z.shiftl_mul_pow2 by lia.
    symmetry. apply Qfloor_unique; lra.
  - rewrite Z.shiftr_div_pow2, Z.shiftl_mul_pow2 by lia.
    cbn [Qfloor Qplus Qnum Qden]. f_equal.
    + rewrite Pos2Z.inj_pow. lia.
    + rewrite Pos2Z.inj_mul, Pos2Z.inj_pow, Z.pow_add_r by lia. lia.
Qed.

Lemma filter_in_sublists (P : string → Prop) `{∀ k, Decision (P k)}
    (l : list string) :
  In (filter P l) (sublists l).
Proof.
  induction l as [|k l IH]; simpl; [by left|].
  rewrite filter_cons. apply in_or_app. destruct (decide (P k)).
  - left. by apply in_map.
  - by right.
Qed.

(** [all_inputs] lists every covered configuration. *)
Lemma all_inputs_complete (r : RateTable) (i : inputs.t) :
  valid r i → In i (all_inputs r).
Proof.
  destruct i as [pt bt st fr sel]. intros (Hp & Hb & Hs & Hf & Hsub).
  cbn [inputs.propertyType inputs.bathrooms inputs.serviceType
       inputs.frequency inputs.checked] in *.
  unfold all_inputs.
  apply in_flat_map. exists pt. split; [by apply list_elem_of_In|].
  apply in_flat_map. exists bt. split; [by apply list_elem_of_In|].
  apply in_flat_map. exists st. split; [by apply list_elem_of_In|].
  apply in_flat_map. exists fr. split; [by apply list_elem_of_In|].
  apply in_map_iff. exists sel. split; [done|].
  unfold selections. apply in_map_iff.
  exists (filter (λ k, k ∈ sel) (keys (addOnPrices r))).
  split; [|apply filter_in_sublists].
  apply set_eq. intros k.
  rewrite elem_of_list_to_set, list_elem_of_filter.
  split; [tauto|]. intros Hk. split; [done|].
  apply Hsub in Hk. by apply elem_of_list_to_set in Hk.
Qed.

Lemma builtin_same_display :
  forallb (same_display builtin) (all_inputs builtin) = true.
Proof. vm_cast_no_check (eq_refl true). Qed.

(** With the built-in tables, what binary64 arithmetic displays for a
    covered configuration is what exact arithmetic displays. *)
Lemma binary64_same_display (i : inputs.t) :
  valid builtin i → same_display builtin i = true.
Proof.
  intros Hvalid. pose proof builtin_same_display as H.
  rewrite forallb_forall in H. by apply H, all_inputs_complete.
Qed.

(** Scenario B in binary64: the discount is the number next to 19.9,
    less than [2^-48] away, and the display is the same. *)
Lemma binary64_scenario_B :
  Binary64.exact
    (Binary64.ToNumber (Binary64.locals.discount
       (Binary64.compute builtin scenarioB)))
    = Some (5601352036542055 # 2 ^ 48)%Q ∧
  (Qabs ((5601352036542055 # 2 ^ 48) - 19.9) <= 1 # 2 ^ 48)%Q ∧
  Binary64.quote builtin scenarioB =
    Binary64.display.mk (Binary64.Num 224) (Binary64.Num 119)
      (true, Binary64.Num 80) (Binary64.Num 20) (Binary64.Num 45).
Proof.
  split; [vm_compute; reflexivity|]. split; [|vm_compute; reflexivity].
  apply Qle_bool_imp_le. vm_compute. reflexivity.
Qed.

(** Scenario C in binary64. *)
Lemma binary64_scenario_C :
  Binary64.exact
    (Binary64.ToNumber (Binary64.locals.discount
       (Binary64.compute builtin scenarioC)))
    = Some (8410472304114401 # 2 ^ 50)%Q ∧
  (Qabs ((8410472304114401 # 2 ^ 50) - 7.47) <= 1 # 2 ^ 50)%Q ∧
  Binary64.quote builtin scenarioC =
    Binary64.display.mk (Binary64.Num 267) (Binary64.Num 69)
      (true, Binary64.Num 180) (Binary64.Num 7) (Binary64.Num 25).
Proof.
  split; [vm_compute; reflexivity|]. split; [|vm_compute; reflexivity].
  apply Qle_bool_imp_le. vm_compute. reflexivity.
Qed.

(** The studio at 65 in binary64: the discount is 6.5 there too. *)
Lemma binary64_tie : same_display tie_rates tie = true.
Proof. vm_compute. reflexivity. Qed.

(** An unknown property type in binary64. *)
Lemma binary64_mansion : same_display builtin mansion = true.
Proof. vm_compute. reflexivity. Qed.

(** * The rest of the page: properties *)

(** ** The testimonial carousel *)

Lemma Qceiling_bounds (x : Q) :
  (inject_Z (Qceiling x) - 1 < x)%Q ∧ (x <= inject_Z (Qceiling x))%Q.
Proof.
  split; [|apply Qle_ceiling].
  pose proof (Qceiling_lt x) as H. unfold Z.sub in H.
  rewrite inject_Z_plus, inject_Z_opp in H.
  change (inject_Z 1) with 1%Q in H. lra.
Qed.

Lemma carousel_slides_cover_cards (n : nat) (c : positive) :
  ((Carousel.totalSlides n c - 1) * Z.pos c < Z.of_nat n)%Z ∧
  (Z.of_nat n <= Carousel.totalSlides n c * Z.pos c)%Z.
Proof.
  unfold Carousel.totalSlides.
  destruct (Qceiling_bounds (Z.of_nat n # c)) as [H1 H2].
  set (t := Qceiling _) in *.
  unfold Qlt, Qle, Qminus, Qplus, Qopp, inject_Z in *. simpl in *. lia.
Qed.

Lemma carousel_totalSlides_ge_1 (n : nat) (c : positive) :
  (1 <= n)%nat → (1 <= Carousel.totalSlides n c)%Z.
Proof.
  intros Hn. destruct (carousel_slides_cover_cards n c) as [_ H]. nia.
Qed.

Lemma carousel_imap_seq {A B} (g : nat → B) (l : list A) :
  imap (λ i _, g i) l = map g (seq 0 (length l)).
Proof. apply imap_seq_0. Qed.

Lemma carousel_length_dots_for (total idx : Z) :
  length (dots_for total idx) = Z.to_nat total.
Proof. unfold dots_for. by rewrite length_map, length_seq. Qed.

Lemma carousel_lookup_dots_for (total idx : Z) (i : nat) (b : bool) :
  dots_for total idx !! i = Some b → (b = true ↔ Z.of_nat i = idx).
Proof.
  unfold dots_for. rewrite list_lookup_fmap.
  destruct (seq 0 (Z.to_nat total) !! i) as [j|] eqn:Hj; [|done].
  apply lookup_seq in Hj as [-> _]. simpl. intros [= <-].
  apply Z.eqb_eq.
Qed.

Lemma carousel_goToSlide_inv (n : nat) (index : Z) (s : Carousel.t) :
  (1 <= n)%nat → carousel_inv n s →
  ∃ s', Carousel.goToSlide n index s = Carousel.Ok s' ∧ carousel_inv n s' ∧
        Carousel.cardsPerView s' = Carousel.cardsPerView s ∧
        Carousel.currentIndex s' =
          (if (Carousel.totalSlides n (Carousel.cardsPerView s) <=? index)%Z
           then 0
           else if (index <? 0)%Z
                then Carousel.totalSlides n (Carousel.cardsPerView s) - 1
                else index)%Z.
Proof.
  intros Hn [Hidx Hdots].
  pose proof (carousel_totalSlides_ge_1 n (Carousel.cardsPerView s) Hn) as Ht.
  unfold Carousel.goToSlide, Carousel.updateCarousel.
  destruct n as [|n]; [lia|].
  eexists. split; [reflexivity|].
  cbn [Carousel.set_currentIndex Carousel.currentIndex Carousel.cardsPerView
       Carousel.dots].
  set (total := Carousel.totalSlides (S n) (Carousel.cardsPerView s)) in *.
  assert (Hlen : length (Carousel.dots s) = Z.to_nat total)
    by (rewrite Hdots; apply carousel_length_dots_for).
  destruct (total <=? index)%Z eqn:H1;
    cbn [Carousel.set_currentIndex Carousel.currentIndex Carousel.cardsPerView
         Carousel.dots].
  - change (0 <? 0)%Z with false.
    cbn [Carousel.set_currentIndex Carousel.currentIndex
         Carousel.cardsPerView Carousel.dots].
    unfold carousel_inv. cbn. rewrite carousel_imap_seq, Hlen.
    repeat split; try done; lia.
  - destruct (index <? 0)%Z eqn:H2;
      cbn [Carousel.set_currentIndex Carousel.currentIndex
           Carousel.cardsPerView Carousel.dots];
      unfold carousel_inv; cbn; rewrite carousel_imap_seq, Hlen;
      repeat split; try done; lia.
Qed.

Lemma carousel_createDots_inv (n : nat) (s : Carousel.t) :
  (1 <= n)%nat → Carousel.currentIndex s = 0%Z →
  ∃ s', Carousel.updateCarousel n (Carousel.createDots n s) = Carousel.Ok s' ∧
        carousel_inv n s' ∧
        Carousel.cardsPerView s' = Carousel.cardsPerView s ∧
        Carousel.currentIndex s' = 0%Z ∧
        Carousel.intervals s' = Carousel.intervals s ∧
        Carousel.autoplay s' = Carousel.autoplay s ∧
        Carousel.next_id s' = Carousel.next_id s.
Proof.
  intros Hn H0.
  pose proof (carousel_totalSlides_ge_1 n (Carousel.cardsPerView s) Hn) as Ht.
  destruct n as [|n]; [lia|].
  unfold Carousel.updateCarousel. eexists. split; [reflexivity|].
  unfold carousel_inv. cbn. rewrite H0.
  rewrite carousel_imap_seq, length_map, length_seq.
  repeat split; try done; lia.
Qed.

Lemma carousel_init_inv (n : nat) (innerWidth cardWidth : Z) :
  (1 <= n)%nat →
  ∃ s, Carousel.init n innerWidth cardWidth = Carousel.Ok s ∧
       carousel_inv n s.
Proof.
  intros Hn. unfold Carousel.init.
  edestruct (carousel_createDots_inv n) as (s' & -> & Hinv & _); [done| |eauto].
  reflexivity.
Qed.

Lemma carousel_handle_inv (n : nat) (e : Carousel.event) (s : Carousel.t) :
  (1 <= n)%nat → carousel_inv n s →
  ∃ s', Carousel.handle n e s = Carousel.Ok s' ∧ carousel_inv n s'.
Proof.
  intros Hn Hinv. destruct e as [| |i|id|w c| |]; cbn [Carousel.handle].
  - destruct (carousel_goToSlide_inv n (Carousel.currentIndex s - 1) s Hn Hinv)
      as (s' & H & ? & _). eauto.
  - destruct (carousel_goToSlide_inv n (Carousel.currentIndex s + 1) s Hn Hinv)
      as (s' & H & ? & _). eauto.
  - case_decide; [|eauto].
    destruct (carousel_goToSlide_inv n (Z.of_nat i) s Hn Hinv) as (s' & H' & ? & _).
    eauto.
  - case_decide; [|eauto].
    destruct (carousel_goToSlide_inv n (Carousel.currentIndex s + 1) s Hn Hinv)
      as (s' & H' & ? & _). eauto.
  - unfold Carousel.resize. cbn [Carousel.cardsPerView].
    case_decide.
    + edestruct (carousel_createDots_inv n) as (s' & -> & ? & _); [done| |eauto].
      reflexivity.
    + eexists. split; [reflexivity|]. exact Hinv.
  - eexists. split; [reflexivity|]. exact Hinv.
  - eexists. split; [reflexivity|]. exact Hinv.
Qed.

Lemma carousel_run_inv (n : nat) (es : list Carousel.event) (s : Carousel.t) :
  (1 <= n)%nat → carousel_inv n s → carousel_inv n (Carousel.run n es s).
Proof.
  intros Hn. revert s. induction es as [|e es IH]; intros s Hinv; [done|].
  cbn [Carousel.run fold_left]. apply IH. unfold Carousel.step.
  destruct (carousel_handle_inv n e s Hn Hinv) as (s' & -> & ?). done.
Qed.

(** With at least one card, whatever happens to the carousel: the slide
    shown is one of the [Math.ceil(cards.length / cardsPerView)] slides,
    there is one dot per slide, and the active dot is the one of the slide
    shown. *)
Theorem carousel_always_in_range (n : nat) (innerWidth cardWidth : Z)
    (es : list Carousel.event) :
  (1 <= n)%nat →
  let s := Carousel.run n es
             (Carousel.state_of (Carousel.init n innerWidth cardWidth)) in
  let total := Carousel.totalSlides n (Carousel.cardsPerView s) in
  (0 <= Carousel.currentIndex s < total)%Z ∧
  Z.of_nat (length (Carousel.dots s)) = total ∧
  ∀ (i : nat) (b : bool),
    Carousel.dots s !! i = Some b →
    (b = true ↔ Z.of_nat i = Carousel.currentIndex s).
Proof.
  intros Hn.
  destruct (carousel_init_inv n innerWidth cardWidth Hn) as (s0 & -> & Hinv0).
  pose proof (carousel_run_inv n es s0 Hn Hinv0) as [Hidx Hdots].
  cbn [Carousel.state_of]. cbv zeta.
  split; [done|]. rewrite Hdots. split.
  - rewrite carousel_length_dots_for. lia.
  - apply carousel_lookup_dots_for.
Qed.

Lemma carousel_always_in_range_witness :
  (1 <= 5)%nat ∧
  let s := Carousel.run 5 [Carousel.NextClick; Carousel.Resize 500 280;
                           Carousel.PrevClick]
             (Carousel.state_of (Carousel.init 5 800 300)) in
  let total := Carousel.totalSlides 5 (Carousel.cardsPerView s) in
  (0 <= Carousel.currentIndex s < total)%Z ∧
  Z.of_nat (length (Carousel.dots s)) = total ∧
  ∀ (i : nat) (b : bool),
    Carousel.dots s !! i = Some b →
    (b = true ↔ Z.of_nat i = Carousel.currentIndex s).
Proof.
  assert (H : (1 <= 5)%nat) by lia.
  split; [exact H|].
  exact (carousel_always_in_range 5 800 300
           [Carousel.NextClick; Carousel.Resize 500 280; Carousel.PrevClick] H).
Defined.

(** No handler of a carousel with a card throws. *)
Theorem carousel_never_throws (n : nat) (innerWidth cardWidth : Z)
    (es : list Carousel.event) (e : Carousel.event) :
  (1 <= n)%nat →
  (∃ s, Carousel.init n innerWidth cardWidth = Carousel.Ok s) ∧
  ∃ s', Carousel.handle n e
          (Carousel.run n es
             (Carousel.state_of (Carousel.init n innerWidth cardWidth)))
        = Carousel.Ok s'.
Proof.
  intros Hn.
  destruct (carousel_init_inv n innerWidth cardWidth Hn) as (s0 & Hinit & Hinv0).
  split; [eauto|]. rewrite Hinit. cbn [Carousel.state_of].
  destruct (carousel_handle_inv n e _ Hn (carousel_run_inv n es s0 Hn Hinv0)) as (s' & ? & _).
  eauto.
Qed.

(** Next and previous step through the slides cyclically, and undo each
    other. *)
Theorem carousel_next_prev (n : nat) (s : Carousel.t) :
  (1 <= n)%nat → carousel_inv n s →
  let total := Carousel.totalSlides n (Carousel.cardsPerView s) in
  let next := Carousel.state_of (Carousel.nextSlide n s) in
  let prev := Carousel.state_of (Carousel.prevSlide n s) in
  Carousel.currentIndex next = ((Carousel.currentIndex s + 1) mod total)%Z ∧
  Carousel.currentIndex prev = ((Carousel.currentIndex s - 1) mod total)%Z ∧
  Carousel.currentIndex (Carousel.state_of (Carousel.prevSlide n next))
    = Carousel.currentIndex s ∧
  Carousel.currentIndex (Carousel.state_of (Carousel.nextSlide n prev))
    = Carousel.currentIndex s.
Proof.
  intros Hn Hinv. cbv zeta. unfold Carousel.nextSlide, Carousel.prevSlide.
  pose proof Hinv as [Hidx _].
  destruct (carousel_goToSlide_inv n (Carousel.currentIndex s + 1) s Hn Hinv)
    as (sn & -> & Hinvn & Hcn & Hin).
  destruct (carousel_goToSlide_inv n (Carousel.currentIndex s - 1) s Hn Hinv)
    as (sp & -> & Hinvp & Hcp & Hip).
  cbn [Carousel.state_of].
  destruct (carousel_goToSlide_inv n (Carousel.currentIndex sn - 1) sn Hn Hinvn)
    as (snp & -> & _ & _ & Hinp).
  destruct (carousel_goToSlide_inv n (Carousel.currentIndex sp + 1) sp Hn Hinvp)
    as (spn & -> & _ & _ & Hipn).
  cbn [Carousel.state_of]. rewrite Hcn in Hinp. rewrite Hcp in Hipn.
  set (total := Carousel.totalSlides n (Carousel.cardsPerView s)) in *.
  set (idx := Carousel.currentIndex s) in *.
  assert (Hn' : Carousel.currentIndex sn = ((idx + 1) mod total)%Z).
  { rewrite Hin. destruct (Z.leb_spec total (idx + 1)).
    - replace (idx + 1)%Z with total by lia. by rewrite Z.mod_same by lia.
    - destruct (Z.ltb_spec (idx + 1) 0); [lia|].
      by rewrite Z.mod_small by lia. }
  assert (Hp' : Carousel.currentIndex sp = ((idx - 1) mod total)%Z).
  { rewrite Hip. destruct (Z.leb_spec total (idx - 1)); [lia|].
    destruct (Z.ltb_spec (idx - 1) 0).
    - replace (idx - 1)%Z with (total - 1 + (-1) * total)%Z by lia.
      rewrite Z.mod_add by lia. rewrite Z.mod_small; lia.
    - by rewrite Z.mod_small by lia. }
  split; [done|]. split; [done|]. clear Hn' Hp'.
  assert (Hn' : Carousel.currentIndex sn
                = (if (total <=? idx + 1)%Z then 0 else idx + 1)%Z).
  { rewrite Hin. destruct (Z.leb_spec total (idx + 1)); [done|].
    destruct (Z.ltb_spec (idx + 1) 0); [lia|done]. }
  assert (Hp' : Carousel.currentIndex sp
                = (if (idx - 1 <? 0)%Z then total - 1 else idx - 1)%Z).
  { rewrite Hip. destruct (Z.leb_spec total (idx - 1)); [lia|done]. }
  split.
  - rewrite Hinp. destruct (Z.leb_spec total (idx + 1)); rewrite Hn'.
    + destruct (Z.leb_spec total (0 - 1)); [lia|].
      destruct (Z.ltb_spec (0 - 1) 0); lia.
    + destruct (Z.leb_spec total (idx + 1 - 1)); [lia|].
      destruct (Z.ltb_spec (idx + 1 - 1) 0); lia.
  - rewrite Hipn. destruct (Z.ltb_spec (idx - 1) 0); rewrite Hp'.
    + destruct (Z.leb_spec total (total - 1 + 1)); lia.
    + destruct (Z.leb_spec total (idx - 1 + 1)); [lia|].
      destruct (Z.ltb_spec (idx - 1 + 1) 0); lia.
Qed.

Lemma carousel_next_prev_witness :
  let s := Carousel.state_of (Carousel.init 5 800 300) in
  (1 <= 5)%nat ∧ carousel_inv 5 s ∧
  Carousel.currentIndex
    (Carousel.state_of (Carousel.prevSlide 5 s)) = ((0 - 1) mod 3)%Z.
Proof.
  assert (H : (1 <= 5)%nat) by lia.
  assert (Hinv : carousel_inv 5 (Carousel.state_of (Carousel.init 5 800 300)))
    by (split; [vm_compute; split; [discriminate|reflexivity] | reflexivity]).
  split; [exact H|]. split; [exact Hinv|].
  exact (proj1 (proj2 (carousel_next_prev 5 _ H Hinv))).
Defined.

(** Without a card there is no slide and no dot, [updateCarousel] throws
    when it reads [cards[0].offsetWidth], at the end of the initialisation
    and in every later click; a click on "previous" leaves the index at
    -1 unless it was above 0, a click on "next" at 0 unless it was below
    -1. *)
Theorem carousel_no_cards (innerWidth cardWidth : Z) (s : Carousel.t) :
  Carousel.totalSlides 0 (Carousel.cardsPerView s) = 0%Z ∧
  (∃ s0, Carousel.init 0 innerWidth cardWidth = Carousel.TypeError s0 ∧
         Carousel.dots s0 = [] ∧ Carousel.transform s0 = None) ∧
  (∃ s', Carousel.prevSlide 0 s = Carousel.TypeError s' ∧
         Carousel.currentIndex s'
           = if (Carousel.currentIndex s <=? 0)%Z then (-1)%Z else 0%Z) ∧
  (∃ s', Carousel.nextSlide 0 s = Carousel.TypeError s' ∧
         Carousel.currentIndex s'
           = if (Carousel.currentIndex s <? -1)%Z then (-1)%Z else 0%Z).
Proof.
  assert (H0 : ∀ c, Carousel.totalSlides 0 c = 0%Z) by (intros c; reflexivity).
  split; [apply H0|]. split; [|split].
  - eexists. split; [reflexivity|]. split; reflexivity.
  - unfold Carousel.prevSlide, Carousel.goToSlide, Carousel.updateCarousel.
    eexists. split; [reflexivity|]. rewrite H0.
    cbn [Carousel.set_currentIndex Carousel.currentIndex].
    destruct (Z.leb_spec 0 (Carousel.currentIndex s - 1));
      cbn [Carousel.set_currentIndex Carousel.currentIndex].
    + destruct (Z.leb_spec (Carousel.currentIndex s) 0); [lia|reflexivity].
    + destruct (Z.ltb_spec (Carousel.currentIndex s - 1) 0); [|lia].
      destruct (Z.leb_spec (Carousel.currentIndex s) 0); [reflexivity|lia].
  - unfold Carousel.nextSlide, Carousel.goToSlide, Carousel.updateCarousel.
    eexists. split; [reflexivity|]. rewrite H0.
    cbn [Carousel.set_currentIndex Carousel.currentIndex].
    destruct (Z.leb_spec 0 (Carousel.currentIndex s + 1));
      cbn [Carousel.set_currentIndex Carousel.currentIndex].
    + destruct (Z.ltb_spec (Carousel.currentIndex s) (-1)); [lia|reflexivity].
    + destruct (Z.ltb_spec (Carousel.currentIndex s + 1) 0); [|lia].
      destruct (Z.ltb_spec (Carousel.currentIndex s) (-1)); [reflexivity|lia].
Qed.

Lemma carousel_updateCarousel_intervals (n : nat) (s : Carousel.t) :
  let s' := Carousel.state_of (Carousel.updateCarousel n s) in
  Carousel.autoplay s' = Carousel.autoplay s ∧
  Carousel.intervals s' = Carousel.intervals s ∧
  Carousel.next_id s' = Carousel.next_id s.
Proof. destruct n; repeat split. Qed.

Lemma carousel_goToSlide_intervals (n : nat) (index : Z) (s : Carousel.t) :
  let s' := Carousel.state_of (Carousel.goToSlide n index s) in
  Carousel.autoplay s' = Carousel.autoplay s ∧
  Carousel.intervals s' = Carousel.intervals s ∧
  Carousel.next_id s' = Carousel.next_id s.
Proof.
  unfold Carousel.goToSlide.
  repeat match goal with
         | |- context [if ?b then _ else _] => destruct b
         end;
    match goal with
    | |- context [Carousel.updateCarousel n ?x] =>
        exact (carousel_updateCarousel_intervals n x)
    end.
Qed.

(** Only the pointer entering or leaving the track touches the
    intervals. *)
Lemma carousel_step_intervals (n : nat) (e : Carousel.event) (s : Carousel.t) :
  e ≠ Carousel.MouseEnter → e ≠ Carousel.MouseLeave →
  let s' := Carousel.step n s e in
  Carousel.autoplay s' = Carousel.autoplay s ∧
  Carousel.intervals s' = Carousel.intervals s ∧
  Carousel.next_id s' = Carousel.next_id s.
Proof.
  intros He Hl. unfold Carousel.step.
  destruct e as [| |i|id|w c| |]; cbn [Carousel.handle]; try done.
  - apply carousel_goToSlide_intervals.
  - apply carousel_goToSlide_intervals.
  - case_decide; [apply carousel_goToSlide_intervals | done].
  - case_decide; [apply carousel_goToSlide_intervals | done].
  - unfold Carousel.resize. case_decide; [|done].
    match goal with
    | |- context [Carousel.updateCarousel n ?x] =>
        exact (carousel_updateCarousel_intervals n x)
    end.
Qed.

Lemma carousel_step_ids_fresh (n : nat) (e : Carousel.event) (s : Carousel.t) :
  ids_fresh s → ids_fresh (Carousel.step n s e).
Proof.
  intros [Ha Hi].
  destruct (decide (e = Carousel.MouseEnter)) as [->|He].
  { split; [done|]. intros id Hid. cbn in Hid. apply Hi. set_solver. }
  destruct (decide (e = Carousel.MouseLeave)) as [->|Hl].
  { split; cbn; [lia|]. intros id Hid.
    apply elem_of_union in Hid as [Hid|Hid].
    - apply elem_of_singleton in Hid. lia.
    - apply Hi in Hid. lia. }
  destruct (carousel_step_intervals n e s He Hl) as (H1 & H2 & H3).
  unfold ids_fresh. by rewrite H1, H2, H3.
Qed.

Lemma carousel_run_hover (n : nat) (es : list Carousel.event) (s : Carousel.t)
    (hovered : bool) :
  alternating hovered es →
  Carousel.intervals s = (if hovered then ∅ else {[Carousel.autoplay s]}) →
  let s' := Carousel.run n es s in
  Carousel.intervals s'
    = if hovered_after hovered es then ∅ else {[Carousel.autoplay s']}.
Proof.
  revert s hovered. induction es as [|e es IH]; intros s hovered Halt Hs;
    [done|].
  cbn [Carousel.run fold_left].
  destruct (decide (e = Carousel.MouseEnter)) as [->|He].
  { destruct Halt as [-> Halt]. apply (IH _ true Halt).
    cbn. rewrite Hs. set_solver. }
  destruct (decide (e = Carousel.MouseLeave)) as [->|Hl].
  { destruct Halt as [-> Halt]. apply (IH _ false Halt).
    cbn. rewrite Hs. set_solver. }
  destruct (carousel_step_intervals n e s He Hl) as (H1 & H2 & H3).
  assert (Halt' : alternating hovered es) by (by destruct e).
  assert (Hh : hovered_after hovered (e :: es) = hovered_after hovered es)
    by (by destruct e).
  rewrite Hh. apply (IH _ hovered Halt'). by rewrite H1, H2.
Qed.

(** As long as the pointer enters the track before it leaves it, one
    autoplay interval runs while the pointer is outside and none while it
    is inside. *)
Theorem carousel_one_interval (n : nat) (innerWidth cardWidth : Z)
    (es : list Carousel.event) :
  alternating false es →
  let s := Carousel.run n es
             (Carousel.state_of (Carousel.init n innerWidth cardWidth)) in
  Carousel.intervals s
    = if hovered_after false es then ∅ else {[Carousel.autoplay s]}.
Proof.
  intros Halt. apply (carousel_run_hover n es _ false Halt).
  destruct n; cbn; set_solver.
Qed.

Lemma carousel_one_interval_witness :
  let es := [Carousel.NextClick; Carousel.MouseEnter; Carousel.MouseLeave] in
  alternating false es ∧
  let s := Carousel.run 5 es (Carousel.state_of (Carousel.init 5 800 300)) in
  Carousel.intervals s
    = if hovered_after false es then ∅ else {[Carousel.autoplay s]}.
Proof.
  assert (H : alternating false
                [Carousel.NextClick; Carousel.MouseEnter; Carousel.MouseLeave])
    by (simpl; auto).
  split; [exact H|].
  exact (carousel_one_interval 5 800 300 _ H).
Defined.

Lemma carousel_run_orphan (n : nat) (es : list Carousel.event) (s : Carousel.t)
    (id : nat) :
  ids_fresh s → id ∈ Carousel.intervals s → id ≠ Carousel.autoplay s →
  let s' := Carousel.run n es s in
  id ∈ Carousel.intervals s' ∧ id ≠ Carousel.autoplay s'.
Proof.
  revert s. induction es as [|e es IH]; intros s Hf Hid Hne; [done|].
  cbn [Carousel.run fold_left].
  apply IH; [by apply carousel_step_ids_fresh| |].
  - destruct (decide (e = Carousel.MouseEnter)) as [->|He];
      [cbn; set_solver|].
    destruct (decide (e = Carousel.MouseLeave)) as [->|Hl];
      [cbn; set_solver|].
    destruct (carousel_step_intervals n e s He Hl) as (_ & -> & _). done.
  - destruct (decide (e = Carousel.MouseEnter)) as [->|He]; [done|].
    destruct (decide (e = Carousel.MouseLeave)) as [->|Hl].
    { cbn. destruct Hf as [_ Hf]. apply Hf in Hid. lia. }
    destruct (carousel_step_intervals n e s He Hl) as (-> & _ & _). done.
Qed.

Lemma carousel_run_ids_fresh (n : nat) (es : list Carousel.event) (s : Carousel.t) :
  ids_fresh s → ids_fresh (Carousel.run n es s).
Proof.
  revert s. induction es as [|e es IH]; intros s Hf; [done|].
  cbn [Carousel.run fold_left]. by apply IH, carousel_step_ids_fresh.
Qed.

Lemma carousel_init_ids_fresh (n : nat) (innerWidth cardWidth : Z) :
  ids_fresh (Carousel.state_of (Carousel.init n innerWidth cardWidth)).
Proof.
  unfold Carousel.init. cbv zeta.
  match goal with
  | |- context [Carousel.updateCarousel n ?x] =>
      destruct (carousel_updateCarousel_intervals n x) as (H1 & H2 & H3)
  end.
  unfold ids_fresh. rewrite H1, H2, H3. cbn. split; [lia|].
  intros id Hid. apply elem_of_union in Hid as [Hid|Hid].
  - apply elem_of_singleton in Hid. lia.
  - by apply not_elem_of_empty in Hid.
Qed.

(** A [mouseleave] that no [mouseenter] preceded starts a second interval
    and overwrites the only handle on the first: whatever happens next,
    the first keeps running and [autoplay] never names it again. *)
Theorem carousel_interval_leak (n : nat) (innerWidth cardWidth : Z)
    (before after : list Carousel.event) :
  let s := Carousel.run n before
             (Carousel.state_of (Carousel.init n innerWidth cardWidth)) in
  Carousel.autoplay s ∈ Carousel.intervals s →
  let s' := Carousel.run n after (Carousel.step n s Carousel.MouseLeave) in
  Carousel.autoplay s ∈ Carousel.intervals s' ∧
  Carousel.autoplay s ≠ Carousel.autoplay s' ∧
  (2 <= size (Carousel.intervals (Carousel.step n s Carousel.MouseLeave)))%nat.
Proof.
  intros s Hrun s'.
  assert (Hf : ids_fresh s) by apply carousel_run_ids_fresh, carousel_init_ids_fresh.
  assert (Hf' : ids_fresh (Carousel.step n s Carousel.MouseLeave))
    by (by apply carousel_step_ids_fresh).
  assert (Hne : Carousel.autoplay s ≠ Carousel.next_id s)
    by (destruct Hf; lia).
  destruct (carousel_run_orphan n after (Carousel.step n s Carousel.MouseLeave)
              (Carousel.autoplay s) Hf') as [H1 H2].
  - cbn. set_solver.
  - cbn. done.
  - split; [exact H1|]. split; [exact H2|].
    assert (Hnot : Carousel.next_id s ∉ Carousel.intervals s).
    { intros Hin. destruct Hf as [_ Hf]. apply Hf in Hin. lia. }
    change (Carousel.intervals (Carousel.step n s Carousel.MouseLeave))
      with ({[Carousel.next_id s]} ∪ Carousel.intervals s).
    rewrite size_union, size_singleton
      by (apply disjoint_singleton_l; exact Hnot).
    assert (size (Carousel.intervals s) ≠ 0)%nat; [|lia].
    intros H0. apply size_empty_inv in H0.
    apply (not_elem_of_empty (C:=gset nat) (Carousel.autoplay s)).
    rewrite <- (leibniz_equiv _ _ H0). exact Hrun.
Qed.

Lemma carousel_interval_leak_witness :
  let s := Carousel.state_of (Carousel.init 5 800 300) in
  Carousel.autoplay s ∈ Carousel.intervals s ∧
  let s' := Carousel.run 5 [Carousel.MouseEnter]
              (Carousel.step 5 s Carousel.MouseLeave) in
  Carousel.autoplay s ∈ Carousel.intervals s' ∧
  Carousel.autoplay s ≠ Carousel.autoplay s'.
Proof.
  assert (H : Carousel.autoplay (Carousel.state_of (Carousel.init 5 800 300))
              ∈ Carousel.intervals
                  (Carousel.state_of (Carousel.init 5 800 300)))
    by (apply (bool_decide_unpack _); vm_compute; exact I).
  split; [exact H|].
  pose proof (carousel_interval_leak 5 800 300 [] [Carousel.MouseEnter] H)
    as (H1 & H2 & _).
  split; [exact H1 | exact H2].
Defined.

Lemma carousel_never_throws_witness :
  (1 <= 5)%nat ∧
  ∃ s', Carousel.handle 5 Carousel.PrevClick
          (Carousel.run 5 [Carousel.NextClick]
             (Carousel.state_of (Carousel.init 5 800 300)))
        = Carousel.Ok s'.
Proof.
  assert (H : (1 <= 5)%nat) by lia.
  split; [exact H|].
  exact (proj2 (carousel_never_throws 5 800 300 [Carousel.NextClick]
                  Carousel.PrevClick H)).
Defined.

(** ** The before/after slider *)

Lemma slider_percentage_wide (r : Slider.rect) (x : Q) :
  (0 < Slider.width r)%Q →
  ∃ p, Slider.percentage r x = Slider.Fin p ∧
       (p == clamp ((x - Slider.left r) / Slider.width r * 100))%Q.
Proof.
  intros Hw. unfold Slider.percentage.
  cbn [Slider.sub Slider.div]. unfold Slider.sgn.
  assert (Hs : (Slider.width r ?= 0)%Q = Gt)
    by (by apply (proj1 (Qgt_alt _ _))).
  rewrite Hs. cbn [Slider.mul Slider.Math_min Slider.Math_max].
  unfold clamp.
  set (v := ((x - Slider.left r) / Slider.width r * 100)%Q).
  destruct (Qle_bool 100 v) eqn:H100.
  - apply Qle_bool_iff in H100.
    assert (H0 : Qle_bool 0 100 = true) by reflexivity. rewrite H0.
    exists 100%Q. split; [done|].
    destruct (Qle_bool v 0) eqn:Hv0; [|reflexivity].
    apply Qle_bool_iff in Hv0. lra.
  - destruct (Qle_bool 0 v) eqn:H0; destruct (Qle_bool v 0) eqn:Hv0;
      eexists; (split; [reflexivity|]); try reflexivity.
    + apply Qle_bool_iff in H0, Hv0. lra.
    + exfalso. assert (Hn : ¬ (0 <= v)%Q)
        by (rewrite <- Qle_bool_iff; congruence).
      assert (Hn' : ¬ (v <= 0)%Q) by (rewrite <- Qle_bool_iff; congruence).
      lra.
Qed.

Lemma slider_clamp_range (v : Q) : (0 <= clamp v)%Q ∧ (clamp v <= 100)%Q.
Proof.
  unfold clamp. destruct (Qle_bool v 0) eqn:H0; [lra|].
  destruct (Qle_bool 100 v) eqn:H1; [lra|].
  assert (¬ (v <= 0)%Q) by (rewrite <- Qle_bool_iff; congruence).
  assert (¬ (100 <= v)%Q) by (rewrite <- Qle_bool_iff; congruence).
  lra.
Qed.

Lemma slider_clamp_mono (v w : Q) : (v <= w)%Q → (clamp v <= clamp w)%Q.
Proof.
  intros H. unfold clamp.
  destruct (Qle_bool v 0) eqn:Hv0; destruct (Qle_bool w 0) eqn:Hw0;
    destruct (Qle_bool 100 v) eqn:Hv1; destruct (Qle_bool 100 w) eqn:Hw1;
    repeat match goal with
    | H : Qle_bool _ _ = true |- _ => apply Qle_bool_iff in H
    | H : Qle_bool ?a ?b = false |- _ =>
        assert (¬ (a <= b)%Q) by (rewrite <- Qle_bool_iff; congruence);
        clear H
    end; lra.
Qed.

(** On a slider of positive width the percentage is the position of the
    pointer across the slider, in percent, kept between 0 and 100: 0 at
    the left edge and to its left, 100 at the right edge and to its
    right. *)
Theorem slider_percentage (r : Slider.rect) (x : Q) :
  (0 < Slider.width r)%Q →
  ∃ p, Slider.percentage r x = Slider.Fin p ∧
       (0 <= p)%Q ∧ (p <= 100)%Q ∧
       ((x <= Slider.left r)%Q → (p == 0)%Q) ∧
       ((Slider.left r + Slider.width r <= x)%Q → (p == 100)%Q) ∧
       ((Slider.left r <= x)%Q → (x <= Slider.left r + Slider.width r)%Q →
        (p * Slider.width r == 100 * (x - Slider.left r))%Q).
Proof.
  intros Hw. destruct (slider_percentage_wide r x Hw) as (p & Hp & Heq).
  exists p. split; [done|].
  pose proof (slider_clamp_range ((x - Slider.left r) / Slider.width r * 100)).
  set (v := ((x - Slider.left r) / Slider.width r * 100)%Q) in *.
  assert (Hv : (v * Slider.width r == 100 * (x - Slider.left r))%Q).
  { unfold v. field. lra. }
  rewrite Heq. unfold clamp in *.
  destruct (Qle_bool v 0) eqn:H0; [|destruct (Qle_bool 100 v) eqn:H1];
    repeat match goal with
    | H : Qle_bool _ _ = true |- _ => apply Qle_bool_iff in H
    | H : Qle_bool ?a ?b = false |- _ =>
        assert (¬ (a <= b)%Q) by (rewrite <- Qle_bool_iff; congruence);
        clear H
    end;
    repeat split; try lra; intros; try nra.
Qed.

Lemma slider_percentage_witness :
  let r := Slider.mkRect 100 400 in
  (0 < Slider.width r)%Q ∧
  ∃ p, Slider.percentage r 200 = Slider.Fin p ∧ (0 <= p)%Q ∧ (p <= 100)%Q.
Proof.
  assert (H : (0 < Slider.width (Slider.mkRect 100 400))%Q) by reflexivity.
  split; [exact H|].
  destruct (slider_percentage (Slider.mkRect 100 400) 200 H)
    as (p & Hp & H0 & H100 & _).
  exists p. split; [exact Hp|]. split; [exact H0 | exact H100].
Defined.

(** Moving the pointer to the right never moves the handle to the
    left. *)
Theorem slider_monotone (r : Slider.rect) (x y : Q) :
  (0 < Slider.width r)%Q → (x <= y)%Q →
  ∃ p q, Slider.percentage r x = Slider.Fin p ∧
         Slider.percentage r y = Slider.Fin q ∧ (p <= q)%Q.
Proof.
  intros Hw Hxy.
  destruct (slider_percentage_wide r x Hw) as (p & Hp & Hpe).
  destruct (slider_percentage_wide r y Hw) as (q & Hq & Hqe).
  exists p, q. split; [done|]. split; [done|].
  rewrite Hpe, Hqe. apply slider_clamp_mono.
  apply Qmult_le_compat_r; [|lra].
  apply Qmult_le_compat_r; [lra|].
  apply Qlt_le_weak, Qinv_lt_0_compat, Hw.
Qed.

Lemma slider_monotone_witness :
  let r := Slider.mkRect 100 400 in
  (0 < Slider.width r)%Q ∧ (150 <= 200)%Q ∧
  ∃ p q, Slider.percentage r 150 = Slider.Fin p ∧
         Slider.percentage r 200 = Slider.Fin q ∧ (p <= q)%Q.
Proof.
  assert (H : (0 < Slider.width (Slider.mkRect 100 400))%Q) by reflexivity.
  assert (H' : (150 <= 200)%Q) by (apply Qle_bool_imp_le; reflexivity).
  split; [exact H|]. split; [exact H'|].
  exact (slider_monotone (Slider.mkRect 100 400) 150 200 H H').
Defined.

(** A slider of width zero: the division is by zero, and the percentage
    is 100 to the right of the slider, 0 to its left and [NaN] on it. *)
Theorem slider_zero_width (r : Slider.rect) (x : Q) :
  (Slider.width r == 0)%Q →
  Slider.percentage r x =
    match (x ?= Slider.left r)%Q with
    | Gt => Slider.Fin 100
    | Lt => Slider.Fin 0
    | Eq => Slider.NaN
    end.
Proof.
  intros Hw. unfold Slider.percentage.
  cbn [Slider.sub Slider.div]. unfold Slider.sgn.
  assert (Hs : (Slider.width r ?= 0)%Q = Eq)
    by (by apply (proj1 (Qeq_alt _ _))).
  rewrite Hs.
  destruct (x ?= Slider.left r)%Q eqn:Hx.
  - apply (proj2 (Qeq_alt _ _)) in Hx.
    assert (H0 : (x - Slider.left r ?= 0)%Q = Eq)
      by (apply (proj1 (Qeq_alt _ _)); lra).
    by rewrite H0.
  - apply (proj2 (Qlt_alt _ _)) in Hx.
    assert (H0 : (x - Slider.left r ?= 0)%Q = Lt)
      by (apply (proj1 (Qlt_alt _ _)); lra).
    by rewrite H0.
  - apply (proj2 (Qgt_alt _ _)) in Hx.
    assert (H0 : (x - Slider.left r ?= 0)%Q = Gt)
      by (apply (proj1 (Qgt_alt _ _)); lra).
    by rewrite H0.
Qed.

Lemma slider_zero_width_witness :
  (Slider.width (Slider.mkRect 100 0) == 0)%Q ∧
  Slider.percentage (Slider.mkRect 100 0) 100 = Slider.NaN.
Proof.
  assert (H : (Slider.width (Slider.mkRect 100 0) == 0)%Q) by reflexivity.
  split; [exact H|].
  exact (slider_zero_width (Slider.mkRect 100 0) 100 H).
Defined.




(** While no button or finger is down on the handle, moves do not move
    the slider. *)
Theorem slider_moves_ignored (s : Slider.t) (es : list Slider.event) :
  Slider.isDragging s = false →
  forallb is_move es = true →
  Slider.run es s = s.
Proof.
  intros Hd. induction es as [|e es IH]; [done|].
  cbn [forallb]. intros [He Hes]%andb_true_iff.
  cbn [Slider.run fold_left].
  assert (Hstep : Slider.step s e = s).
  { destruct e; try discriminate; cbn; by rewrite Hd. }
  rewrite Hstep. by apply IH.
Qed.

Lemma slider_moves_ignored_witness :
  let s := Slider.run [Slider.MouseDown; Slider.MouseUp] Slider.init in
  let es := [Slider.MouseMove (Slider.mkRect 100 400) 200] in
  Slider.isDragging s = false ∧ forallb is_move es = true ∧
  Slider.run es s = s.
Proof.
  assert (H : Slider.isDragging
    (Slider.run [Slider.MouseDown; Slider.MouseUp] Slider.init) = false)
    by reflexivity.
  assert (H' : forallb is_move
    [Slider.MouseMove (Slider.mkRect 100 400) 200] = true) by reflexivity.
  split; [exact H|]. split; [exact H'|].
  exact (slider_moves_ignored _ _ H H').
Defined.

(** ** The booking form *)

Lemma form_trimStart_nil (s : Form.jsstring) :
  Form.trimStart s = [] ↔ ∀ c, c ∈ s → Form.is_whitespace c = true.
Proof.
  induction s as [|c s IH]; simpl.
  - split; [|done]. intros _ c Hc. inversion Hc.
  - destruct (Form.is_whitespace c) eqn:Hc.
    + rewrite IH. split.
      * intros H c' [->|Hc']%elem_of_cons; auto.
      * intros H c' Hc'. apply H. by right.
    + split; [done|]. intros H. specialize (H c (list_elem_of_here _ _)).
      congruence.
Qed.

Lemma form_trimStart_elem (s : Form.jsstring) (c : N) :
  c ∈ s → Form.is_whitespace c = false → c ∈ Form.trimStart s.
Proof.
  intros Hc Hw. induction s as [|c' s IH]; [done|]. simpl.
  destruct (Form.is_whitespace c') eqn:Hc'; [|done].
  apply elem_of_cons in Hc as [->|Hc]; [congruence | auto].
Qed.

(** [trim] leaves the empty string exactly when every code unit is white
    space. *)
Lemma form_trim_nil (s : Form.jsstring) :
  Form.trim s = [] ↔ ∀ c, c ∈ s → Form.is_whitespace c = true.
Proof.
  unfold Form.trim, Form.trimEnd. split.
  - intros H c Hc.
    destruct (Form.is_whitespace c) eqn:Hw; [done|]. exfalso.
    apply (f_equal (@rev N)) in H. rewrite rev_involutive in H.
    simpl in H.
    assert (Hin : c ∈ Form.trimStart (rev (Form.trimStart s))).
    { apply form_trimStart_elem; [|done]. apply list_elem_of_In, in_rev.
      rewrite rev_involutive. by apply list_elem_of_In, form_trimStart_elem. }
    rewrite H in Hin. inversion Hin.
  - intros H. apply form_trimStart_nil in H. by rewrite H.
Qed.

(** The form is accepted exactly when each of the five required fields
    has a value with something other than white space in it; fields that
    are not required play no part. *)
Theorem form_valid_iff (d : Form.data) :
  Form.validateForm d = true ↔
  ∀ field, field ∈ Form.required → filled d field.
Proof.
  unfold Form.validateForm. rewrite forallb_forall. split.
  - intros H field Hf. specialize (H field (proj1 (list_elem_of_In _ _) Hf)).
    destruct (d !! field) as [v|] eqn:Hd; [|done].
    apply andb_true_iff in H as [_ H].
    destruct (Form.trim v) eqn:Ht; [done|].
    destruct (decide (Forall (λ c, Form.is_whitespace c = true) v))
      as [Hall|Hn].
    + rewrite Forall_forall in Hall. apply form_trim_nil in Hall. congruence.
    + apply not_Forall_Exists in Hn; [|apply _].
      apply Exists_exists in Hn as (c & Hc & Hw).
      exists v, c. split; [done|]. split; [done|].
      simpl in Hw. by apply not_true_is_false.
  - intros H field Hf. apply list_elem_of_In in Hf.
    destruct (H field Hf) as (v & c & -> & Hc & Hw).
    assert (Hne : Form.trim v ≠ []).
    { intros Ht. rewrite form_trim_nil in Ht. rewrite (Ht c Hc) in Hw. done. }
    destruct v; [inversion Hc|]. destruct (Form.trim (n :: v)); done.
Qed.

Lemma form_step_ok (defaults : Form.data) (label : string) (s : Form.t)
    (e : Form.event) :
  (e = Form.Submit → Form.button_disabled s = false) →
  button_ok label s → button_ok label (Form.step defaults s e).
Proof.
  intros He Hok. destruct e as [name value| |]; cbn [Form.step].
  - exact Hok.
  - destruct Hok as [(Hd & Hl & Hw)|(Hd & _)];
      [|rewrite He in Hd by done; discriminate].
    unfold Form.submit. destruct (Form.validateForm (Form.fields s)); cbn.
    + right. by rewrite Hl, Hw.
    + left. done.
  - destruct Hok as [(Hd & Hl & Hw)|(Hd & Hl & Hw)];
      unfold Form.resume; rewrite Hw; [by left|]. left. done.
Qed.

(** As long as the form is submitted only while its button is enabled,
    the button is either enabled with its own label and nothing waiting,
    or disabled with the "Sending..." label while one submission waits: it
    always gets its label back. *)
Theorem form_button_restored (defaults : Form.data) (s : Form.t)
    (es : list Form.event) :
  Form.button_disabled s = false → Form.waiting s = [] →
  one_at_a_time defaults s es →
  button_ok (Form.button_innerHTML s) (Form.run defaults es s).
Proof.
  intros Hd Hw Hes.
  assert (H : ∀ label s, button_ok label s → one_at_a_time defaults s es →
                         button_ok label (Form.run defaults es s)).
  { clear. induction es as [|e es IH]; intros label s Hok Hes; [done|].
    destruct Hes as [He Hes]. cbn [Form.run fold_left].
    apply IH; [|done]. by apply form_step_ok. }
  apply H; [|done]. left. done.
Qed.

Lemma form_submit_valid (s : Form.t) :
  Form.validateForm (Form.fields s) = true →
  Form.submit s =
    Form.mk (Form.fields s) (Form.message_textContent s)
            (Form.message_className s) Form.sending true
            (Form.waiting s ++ [Form.button_innerHTML s]).
Proof. intros Hv. unfold Form.submit. by rewrite Hv. Qed.

(** When the listener runs a second time before the first has resumed, it
    takes the "Sending..." label for the original: once both have
    resumed the button is enabled and still says "Sending...". *)
Theorem form_double_submit (defaults : Form.data) (s : Form.t) :
  Form.validateForm (Form.fields s) = true → Form.waiting s = [] →
  let s' := Form.run defaults
              [Form.Submit; Form.Submit; Form.Timeout; Form.Timeout] s in
  Form.button_innerHTML s' = Form.sending ∧
  Form.button_disabled s' = false ∧
  Form.waiting s' = [].
Proof.
  intros Hv Hw. cbn [Form.run fold_left Form.step].
  rewrite (form_submit_valid s Hv), Hw. cbn [app].
  rewrite form_submit_valid by exact Hv.
  cbn [Form.fields Form.message_textContent Form.message_className
       Form.waiting Form.button_innerHTML app].
  repeat split.
Qed.

Lemma form_button_restored_witness :
  let es := [Form.Submit; Form.Input "name" (units " "); Form.Timeout;
             Form.Submit] in
  Form.button_disabled booking_page = false ∧
  Form.waiting booking_page = [] ∧
  one_at_a_time ∅ booking_page es ∧
  button_ok "Book Now" (Form.run ∅ es booking_page).
Proof.
  assert (Hd : Form.button_disabled booking_page = false) by reflexivity.
  assert (Hw : Form.waiting booking_page = []) by reflexivity.
  assert (Hes : one_at_a_time ∅ booking_page
                  [Form.Submit; Form.Input "name" (units " "); Form.Timeout;
                   Form.Submit]).
  { repeat split; try discriminate; intros _; vm_compute; reflexivity. }
  split; [exact Hd|]. split; [exact Hw|]. split; [exact Hes|].
  exact (form_button_restored ∅ booking_page _ Hd Hw Hes).
Defined.

Lemma form_double_submit_witness :
  Form.validateForm (Form.fields booking_page) = true ∧
  Form.waiting booking_page = [] ∧
  Form.button_innerHTML
    (Form.run ∅ [Form.Submit; Form.Submit; Form.Timeout; Form.Timeout]
       booking_page) = Form.sending.
Proof.
  assert (Hv : Form.validateForm (Form.fields booking_page) = true)
    by (vm_compute; reflexivity).
  assert (Hw : Form.waiting booking_page = []) by reflexivity.
  split; [exact Hv|]. split; [exact Hw|].
  exact (proj1 (form_double_submit ∅ booking_page Hv Hw)).
Defined.

Lemma form_valid_iff_witness :
  Form.validateForm filled_in = true ∧ filled filled_in "phone".
Proof.
  assert (H : Form.validateForm filled_in = true) by (vm_compute; reflexivity).
  split; [exact H|].
  apply (proj1 (form_valid_iff filled_in) H).
  apply (bool_decide_unpack _). vm_compute. exact I.
Defined.

(** ** [debounce] *)

Lemma debounce_step_inv {A} (s : Debounce.t A) (e : Debounce.event A) :
  debounce_inv s → debounce_inv (Debounce.step s e).
Proof.
  intros Hinv. destruct e as [args|id]; cbn [Debounce.step].
  - intros id a. unfold Debounce.call. cbn.
    destruct (decide (id = Debounce.next_id s)) as [->|Hne]; [done|].
    rewrite lookup_insert_ne by done. intros Hl.
    destruct (Debounce.timeout s) as [old|] eqn:Ht; cbn in Hl.
    + destruct (decide (id = old)) as [->|Hne'].
      * by rewrite lookup_delete_eq in Hl.
      * rewrite lookup_delete_ne in Hl by done.
        apply Hinv in Hl. congruence.
    + apply Hinv in Hl. congruence.
  - unfold Debounce.fire.
    destruct (Debounce.timers s !! id) as [args|] eqn:Hid; [|done].
    intros id' a. cbn. intros Hl. exfalso.
    pose proof (Hinv _ _ Hid) as Ht. rewrite Ht in Hl. cbn in Hl.
    destruct (decide (id' = id)) as [->|Hne].
    + by rewrite lookup_delete_eq in Hl.
    + rewrite !lookup_delete_ne in Hl by done.
      apply Hinv in Hl. congruence.
Qed.

Lemma debounce_run_inv {A} (es : list (Debounce.event A)) (s : Debounce.t A) :
  debounce_inv s → debounce_inv (Debounce.run es s).
Proof.
  revert s. induction es as [|e es IH]; intros s Hinv; [done|].
  cbn [Debounce.run fold_left]. by apply IH, debounce_step_inv.
Qed.

(** A debounced function never has more than one timer set, and it is
    the one its variable [timeout] names. *)
Theorem debounce_one_timer {A} (es : list (Debounce.event A)) :
  let s := Debounce.run es Debounce.init in
  (size (Debounce.timers s) <= 1)%nat ∧
  ∀ id a, Debounce.timers s !! id = Some a → Debounce.timeout s = Some id.
Proof.
  assert (Hinv : debounce_inv (Debounce.run es (@Debounce.init A))).
  { apply debounce_run_inv. intros id a. cbn. by rewrite lookup_empty. }
  split; [|exact Hinv].
  destruct (Debounce.timeout (Debounce.run es Debounce.init)) as [id|] eqn:Ht.
  - destruct (Debounce.timers (Debounce.run es Debounce.init) !! id)
      as [a|] eqn:Hid.
    + assert (Heq : Debounce.timers (Debounce.run es Debounce.init)
                    = {[id := a]}).
      { apply map_eq. intros j. destruct (decide (j = id)) as [->|Hne].
        - by rewrite lookup_singleton_eq.
        - rewrite lookup_singleton_ne by done.
          destruct (Debounce.timers _ !! j) eqn:Hj; [|done].
          apply Hinv in Hj. congruence. }
      rewrite Heq, map_size_singleton. done.
    + assert (Heq : Debounce.timers (Debounce.run es (@Debounce.init A)) = ∅).
      { apply map_eq. intros j. rewrite lookup_empty.
        destruct (Debounce.timers _ !! j) eqn:Hj; [|done].
        pose proof (Hinv _ _ Hj). congruence. }
      rewrite Heq, map_size_empty. lia.
  - assert (Heq : Debounce.timers (Debounce.run es (@Debounce.init A)) = ∅).
    { apply map_eq. intros j. rewrite lookup_empty.
      destruct (Debounce.timers _ !! j) eqn:Hj; [|done].
      pose proof (Hinv _ _ Hj). congruence. }
    rewrite Heq, map_size_empty. lia.
Qed.

Lemma debounce_call_state {A} (s : Debounce.t A) (a : A) :
  debounce_inv s →
  Debounce.call a s =
    Debounce.mk (Some (Debounce.next_id s)) {[Debounce.next_id s := a]}
                (S (Debounce.next_id s)) (Debounce.calls s).
Proof.
  intros Hinv. unfold Debounce.call. f_equal.
  apply map_eq. intros j.
  destruct (decide (j = Debounce.next_id s)) as [->|Hne].
  - by rewrite lookup_insert_eq, lookup_singleton_eq.
  - rewrite lookup_insert_ne, lookup_singleton_ne by done.
    destruct (Debounce.timeout s) as [old|] eqn:Ht; cbn.
    + destruct (decide (j = old)) as [->|Hne'];
        [by rewrite lookup_delete_eq|].
      rewrite lookup_delete_ne by done.
      destruct (Debounce.timers s !! j) eqn:Hj; [|done].
      apply Hinv in Hj. congruence.
    + destruct (Debounce.timers s !! j) eqn:Hj; [|done].
      apply Hinv in Hj. congruence.
Qed.

Lemma debounce_calls_state {A} (s : Debounce.t A) (l : list A) (a : A) :
  debounce_inv s →
  Debounce.run (map Debounce.Call (l ++ [a])) s =
    let id := (Debounce.next_id s + length l)%nat in
    Debounce.mk (Some id) {[id := a]} (S id) (Debounce.calls s).
Proof.
  revert s. induction l as [|b l IH]; intros s Hinv.
  - cbn. rewrite Nat.add_0_r. by apply debounce_call_state.
  - cbn [app map Debounce.run fold_left Debounce.step].
    pose proof (debounce_step_inv s (Debounce.Call b) Hinv) as Hinv'.
    cbn [Debounce.step] in Hinv'.
    change (fold_left Debounce.step ?es ?s) with (Debounce.run es s).
    rewrite (IH _ Hinv'). rewrite (debounce_call_state s b Hinv). cbn.
    by replace (S (Debounce.next_id s + length l))
      with (Debounce.next_id s + S (length l))%nat by lia.
Qed.

(** A burst of calls does not run [func]; when the timer then fires,
    [func] runs once, with the arguments of the last call, and no timer is
    left. *)
Theorem debounce_burst {A} (es : list (Debounce.event A)) (l : list A)
    (a : A) :
  let s := Debounce.run es Debounce.init in
  let s1 := Debounce.run (map Debounce.Call (l ++ [a])) s in
  Debounce.calls s1 = Debounce.calls s ∧
  ∃ id, Debounce.timeout s1 = Some id ∧
        Debounce.timers s1 = {[id := a]} ∧
        Debounce.calls (Debounce.fire id s1) = (Debounce.calls s ++ [a])%list ∧
        Debounce.timers (Debounce.fire id s1) = ∅.
Proof.
  cbv zeta.
  assert (Hinv : debounce_inv (Debounce.run es (@Debounce.init A))).
  { apply debounce_run_inv. intros id b. cbn. by rewrite lookup_empty. }
  rewrite (debounce_calls_state _ l a Hinv). cbn.
  split; [done|]. eexists. split; [done|]. split; [done|].
  unfold Debounce.fire. cbn. rewrite lookup_singleton_eq. cbn.
  split; [done|]. by rewrite !delete_singleton_eq.
Qed.

Lemma debounce_log_sublist {A} (s : Debounce.t A) (l : list A) :
  debounce_log s l → sublist (Debounce.calls s) l.
Proof.
  unfold debounce_log. destruct (debounce_waiting s); [|done].
  intros (l' & -> & H). by apply sublist_inserts_r.
Qed.

Lemma debounce_step_log {A} (s : Debounce.t A) (e : Debounce.event A)
    (l : list A) :
  debounce_inv s → debounce_log s l →
  debounce_log (Debounce.step s e) (l ++ debounce_args [e])%list.
Proof.
  intros Hinv Hlog. destruct e as [b|id]; cbn [Debounce.step debounce_args omap].
  - rewrite (debounce_call_state s b Hinv).
    unfold debounce_log, debounce_waiting. cbn.
    rewrite lookup_singleton_eq. exists l. split; [done|].
    by apply debounce_log_sublist.
  - cbn. rewrite app_nil_r. unfold Debounce.fire.
    destruct (Debounce.timers s !! id) as [a|] eqn:Hid; [|done].
    pose proof (Hinv _ _ Hid) as Ht.
    unfold debounce_log, debounce_waiting in *. rewrite Ht, Hid in Hlog.
    destruct Hlog as (l' & -> & Hsub). cbn. rewrite Ht. cbn.
    rewrite lookup_delete_eq. by apply sublist_app.
Qed.

(** [func] is only ever called with the arguments of calls of the
    debounced function, in the order these were made and at most once for
    each. *)
Theorem debounce_calls_sublist {A} (es : list (Debounce.event A)) :
  sublist (Debounce.calls (Debounce.run es Debounce.init)) (debounce_args es).
Proof.
  assert (H : ∀ (s : Debounce.t A) l, debounce_inv s → debounce_log s l →
    debounce_log (Debounce.run es s) (l ++ debounce_args es)%list).
  { induction es as [|e es IH]; intros s l Hinv Hlog.
    - cbn. by rewrite app_nil_r.
    - cbn [Debounce.run fold_left].
      change (debounce_args (e :: es))
        with (debounce_args ([e] ++ es)%list).
      unfold debounce_args. rewrite omap_app, app_assoc.
      apply IH; [by apply debounce_step_inv|].
      by apply debounce_step_log. }
  apply debounce_log_sublist. apply (H Debounce.init []).
  - intros id b. cbn. by rewrite lookup_empty.
  - apply sublist_nil_l.
Qed.

(** ** [throttle] *)

Lemma throttle_called_idle {A} (s : Throttle.t A) (a : A) :
  Throttle.inThrottle s = true → Throttle.call a s = s.
Proof. intros H. unfold Throttle.call. by rewrite H. Qed.

Lemma throttle_step_inv {A} (s : Throttle.t A) (e : Throttle.event A) :
  throttle_inv s → throttle_inv (Throttle.step s e).
Proof.
  intros Hinv. destruct e as [a|id]; cbn [Throttle.step].
  - destruct (Throttle.inThrottle s) eqn:Hin;
      [by rewrite throttle_called_idle|].
    destruct Hinv as [Hshape Hfresh]. rewrite Hin in Hshape.
    unfold Throttle.call. rewrite Hin. cbn [negb].
    split; cbn [Throttle.inThrottle Throttle.timers Throttle.next_id].
    + exists (Throttle.next_id s). rewrite Hshape.
      apply (right_id_L ∅ (∪)).
    + intros id. rewrite Hshape, (right_id_L ∅ (∪)).
      intros ->%elem_of_singleton. lia.
  - unfold Throttle.fire. case_decide as Hid; [|done].
    destruct Hinv as [Hshape Hfresh].
    destruct (Throttle.inThrottle s) eqn:Hin.
    + destruct Hshape as [id' Heq].
      split; cbn [Throttle.inThrottle Throttle.timers Throttle.next_id].
      * rewrite Heq in Hid |- *. apply elem_of_singleton in Hid as ->.
        apply difference_diag_L.
      * intros j [Hj _]%elem_of_difference. by apply Hfresh.
    + rewrite Hshape in Hid. by apply not_elem_of_empty in Hid.
Qed.

Lemma throttle_run_inv {A} (es : list (Throttle.event A)) (s : Throttle.t A) :
  throttle_inv s → throttle_inv (Throttle.run es s).
Proof.
  revert s. induction es as [|e es IH]; intros s Hinv; [done|].
  cbn [Throttle.run fold_left]. by apply IH, throttle_step_inv.
Qed.

Lemma throttle_init_inv {A} : throttle_inv (@Throttle.init A).
Proof. split; cbn; [done|]. intros id Hid. set_solver. Qed.

(** A throttled function has a timer set exactly while [inThrottle] is
    true, and never more than one: the flag is always released. *)
Theorem throttle_flag_timer {A} (es : list (Throttle.event A)) :
  let s := Throttle.run es Throttle.init in
  (size (Throttle.timers s) <= 1)%nat ∧
  (Throttle.inThrottle s = true ↔ Throttle.timers s ≠ ∅).
Proof.
  cbv zeta.
  destruct (throttle_run_inv es _ (@throttle_init_inv A)) as [Hshape _].
  destruct (Throttle.inThrottle (Throttle.run es Throttle.init)).
  - destruct Hshape as [id ->]. rewrite size_singleton. split; [lia|].
    split; [|done]. intros _ H.
    apply (f_equal size) in H. by rewrite size_singleton, size_empty in H.
  - rewrite Hshape, size_empty. split; [lia|]. split; [done|].
    intros H. by destruct H.
Qed.

Lemma throttle_dropped {A} (s : Throttle.t A) (l : list A) :
  Throttle.inThrottle s = true → Throttle.run (map Throttle.Call l) s = s.
Proof.
  intros Hin. induction l as [|c l IH]; [done|].
  cbn [map Throttle.run fold_left Throttle.step].
  rewrite throttle_called_idle by done. exact IH.
Qed.

(** While throttled, calls are dropped: they change nothing, so [func]
    never sees them, not even after the timer has fired; the first call
    after that runs at once. *)
Theorem throttle_drops_calls {A} (es : list (Throttle.event A))
    (a : A) (dropped : list A) (b : A) :
  let s := Throttle.run es Throttle.init in
  Throttle.inThrottle s = false →
  let s1 := Throttle.call a s in
  Throttle.calls s1 = (Throttle.calls s ++ [a])%list ∧
  Throttle.run (map Throttle.Call dropped) s1 = s1 ∧
  let s2 := Throttle.fire (Throttle.next_id s) s1 in
  Throttle.calls s2 = (Throttle.calls s ++ [a])%list ∧
  Throttle.inThrottle s2 = false ∧
  Throttle.timers s2 = ∅ ∧
  Throttle.calls (Throttle.call b s2) = (Throttle.calls s ++ [a; b])%list.
Proof.
  intros s Hfree s1.
  destruct (throttle_run_inv es _ (@throttle_init_inv A)) as [Hshape _].
  fold s in Hshape. rewrite Hfree in Hshape.
  assert (Hs1 : s1 = Throttle.mk true {[Throttle.next_id s]}
                       (S (Throttle.next_id s))
                       (Throttle.calls s ++ [a])%list).
  { unfold s1, Throttle.call. rewrite Hfree. cbn [negb]. f_equal.
    rewrite Hshape. apply (right_id_L ∅ (∪)). }
  split; [by rewrite Hs1|]. split.
  - apply throttle_dropped. by rewrite Hs1.
  - cbv zeta. rewrite Hs1. unfold Throttle.fire.
    cbn [Throttle.timers Throttle.next_id Throttle.calls].
    rewrite decide_True by (by apply elem_of_singleton).
    cbn. repeat split; try done.
    + apply difference_diag_L.
    + by rewrite <- app_assoc.
Qed.

Lemma throttle_drops_calls_witness :
  let s := Throttle.run [Throttle.Call 1%nat; Throttle.Fire 0%nat]
             Throttle.init in
  Throttle.inThrottle s = false ∧
  Throttle.calls
    (Throttle.run (map Throttle.Call [3; 4]%nat) (Throttle.call 2%nat s))
    = [1; 2]%nat.
Proof.
  assert (H : Throttle.inThrottle
    (Throttle.run [Throttle.Call 1%nat; Throttle.Fire 0%nat] Throttle.init)
    = false) by (vm_compute; reflexivity).
  split; [exact H|].
  destruct (throttle_drops_calls
              [Throttle.Call 1%nat; Throttle.Fire 0%nat] 2%nat [3; 4]%nat
              5%nat H) as (H1 & H2 & _).
  exact (eq_trans (f_equal Throttle.calls H2) H1).
Defined.

(** [func] is only ever called with the arguments of calls of the
    throttled function, in order and at most once for each, and synchronously:
    a timer firing calls nothing. *)
Theorem throttle_calls_sublist {A} (es : list (Throttle.event A)) :
  sublist (Throttle.calls (Throttle.run es Throttle.init)) (throttle_args es) ∧
  ∀ id, Throttle.calls (Throttle.fire id (Throttle.run es Throttle.init))
        = Throttle.calls (Throttle.run es Throttle.init).
Proof.
  split.
  - assert (H : ∀ (s : Throttle.t A) l, sublist (Throttle.calls s) l →
      sublist (Throttle.calls (Throttle.run es s))
              (l ++ throttle_args es)%list).
    { induction es as [|e es IH]; intros s l Hs.
      - cbn. by rewrite app_nil_r.
      - cbn [Throttle.run fold_left].
        change (throttle_args (e :: es)) with (throttle_args ([e] ++ es)%list).
        unfold throttle_args. rewrite omap_app, app_assoc. apply IH.
        destruct e as [a|id]; cbn.
        + unfold Throttle.call. destruct (Throttle.inThrottle s); cbn.
          * by apply sublist_inserts_r.
          * by apply sublist_app.
        + rewrite app_nil_r. unfold Throttle.fire. by case_decide. }
    apply (H Throttle.init []). apply sublist_nil_l.
  - intros id. unfold Throttle.fire. by case_decide.
Qed.

Lemma debounce_one_timer_witness :
  let s := Debounce.run [Debounce.Call 1%nat; Debounce.Call 2%nat]
             Debounce.init in
  Debounce.timers s !! 1%nat = Some 2%nat ∧
  Debounce.timeout s = Some 1%nat.
Proof.
  assert (H : Debounce.timers
                (Debounce.run [Debounce.Call 1%nat; Debounce.Call 2%nat]
                   Debounce.init) !! 1%nat = Some 2%nat)
    by (vm_compute; reflexivity).
  split; [exact H|].
  exact (proj2 (debounce_one_timer
                  [Debounce.Call 1%nat; Debounce.Call 2%nat]) 1%nat 2%nat H).
Defined.

(** ** The FAQ accordion *)

(** After a click on the question of an item, that item is open if it was
    closed and no item is open if it was open: never two at once,
    whatever was open before.  No other class is touched. *)
Theorem faq_one_open (faqItems : list ClassList.t) (j : nat)
    (item : ClassList.t) :
  faqItems !! j = Some item →
  let after := Faq.click j faqItems in
  length after = length faqItems ∧
  ∀ i before, faqItems !! i = Some before →
    ∃ now, after !! i = Some now ∧
      ("active" ∈ now ↔ i = j ∧ "active" ∉ item) ∧
      ∀ c, c ≠ "active" → (c ∈ now ↔ c ∈ before).
Proof.
  intros Hj. cbv zeta. unfold Faq.click. rewrite Hj.
  unfold ClassList.contains. split.
  - case_bool_decide; cbn [negb]; by rewrite ?length_alter, length_map.
  - intros i before Hi.
    case_bool_decide as Hact; cbn [negb].
    + exists (ClassList.remove "active" before). split.
      { change (map ?f ?l) with (f <$> l). by rewrite list_lookup_fmap, Hi. }
      unfold ClassList.remove. split; [set_solver|]. set_solver.
    + destruct (decide (i = j)) as [->|Hne].
      * exists (ClassList.add "active" (ClassList.remove "active" before)).
        split.
        { rewrite list_lookup_alter_eq.
          change (map ?f ?l) with (f <$> l).
          by rewrite list_lookup_fmap, Hi. }
        unfold ClassList.add, ClassList.remove. split; set_solver.
      * exists (ClassList.remove "active" before). split.
        { rewrite list_lookup_alter_ne by done.
          change (map ?f ?l) with (f <$> l).
          by rewrite list_lookup_fmap, Hi. }
        unfold ClassList.remove. split; set_solver.
Qed.

Lemma faq_one_open_witness :
  let faqItems : list ClassList.t :=
    [{["faq-item"; "active"]}; {["faq-item"]}; {["faq-item"; "active"]}] in
  faqItems !! 1%nat = Some {["faq-item"]} ∧
  length (Faq.click 1 faqItems) = 3%nat.
Proof.
  assert (H : ([{["faq-item"; "active"]}; {["faq-item"]};
                {["faq-item"; "active"]}] : list ClassList.t) !! 1%nat
              = Some {["faq-item"]}) by reflexivity.
  split; [exact H|].
  exact (proj1 (faq_one_open _ 1 _ H)).
Defined.

(** ** The gallery *)

(** After a click on a tab, that tab and no other is active, and an item
    is displayed exactly when the filter of the tab is "all" or is the
    category of the item (a tab without [data-filter] displays the items
    without [data-category]); the others are hidden. *)
Theorem gallery_filter (g : Gallery.t) (k : nat) (this : Gallery.tab) :
  Gallery.tabs g !! k = Some this →
  let g' := Gallery.click k g in
  let filter := Gallery.data_filter this in
  (∀ i t, Gallery.tabs g !! i = Some t →
     ∃ t', Gallery.tabs g' !! i = Some t' ∧
           Gallery.data_filter t' = Gallery.data_filter t ∧
           ("active" ∈ Gallery.tab_classList t' ↔ i = k)) ∧
  (∀ i it, Gallery.items g !! i = Some it →
     ∃ it', Gallery.items g' !! i = Some it' ∧
            Gallery.data_category it' = Gallery.data_category it ∧
            Gallery.display it' =
              Some (if bool_decide (filter = Some "all" ∨
                                    Gallery.data_category it = filter)
                    then "block" else "none")) ∧
  length (Gallery.tabs g') = length (Gallery.tabs g) ∧
  length (Gallery.items g') = length (Gallery.items g).
Proof.
  intros Hk. cbv zeta. unfold Gallery.click. rewrite Hk.
  cbn [Gallery.tabs Gallery.items].
  change (map ?f ?l) with (f <$> l).
  split; [|split; [|split]].
  - intros i t Hi. destruct (decide (i = k)) as [->|Hne].
    + rewrite list_lookup_alter_eq, list_lookup_fmap, Hi. cbn.
      eexists. split; [reflexivity|]. cbn. split; [done|].
      unfold ClassList.add. split; [done|]. intros _. set_solver.
    + rewrite list_lookup_alter_ne, list_lookup_fmap, Hi by done. cbn.
      eexists. split; [reflexivity|]. cbn. split; [done|].
      unfold ClassList.remove. split; [set_solver|done].
  - intros i it Hi. rewrite list_lookup_fmap, Hi. cbn.
    eexists. split; [reflexivity|]. unfold Gallery.shown.
    destruct (decide (Gallery.data_filter this = Some "all")) as [Ha|Ha];
      destruct (decide (Gallery.data_category it = Gallery.data_filter this))
        as [Hc|Hc].
    + rewrite !bool_decide_eq_true_2 by auto. done.
    + rewrite (bool_decide_eq_true_2 _ Ha).
      rewrite (bool_decide_eq_true_2 (_ ∨ _)) by auto. done.
    + rewrite (bool_decide_eq_false_2 _ Ha), (bool_decide_eq_true_2 _ Hc).
      rewrite (bool_decide_eq_true_2 (_ ∨ _)) by auto. done.
    + rewrite (bool_decide_eq_false_2 _ Ha), (bool_decide_eq_false_2 _ Hc).
      rewrite (bool_decide_eq_false_2 (_ ∨ _)) by tauto. done.
  - by rewrite length_alter, length_fmap.
  - by rewrite length_fmap.
Qed.

Lemma gallery_filter_witness :
  let g := Gallery.mk
    [Gallery.mkTab {["gallery-tab"; "active"]} (Some "all");
     Gallery.mkTab {["gallery-tab"]} (Some "kitchen")]
    [Gallery.mkItem (Some "kitchen") None None;
     Gallery.mkItem (Some "bath") None None] in
  Gallery.tabs g !! 1%nat = Some (Gallery.mkTab {["gallery-tab"]} (Some "kitchen")) ∧
  length (Gallery.items (Gallery.click 1 g)) = 2%nat.
Proof.
  set (g := Gallery.mk
    [Gallery.mkTab {["gallery-tab"; "active"]} (Some "all");
     Gallery.mkTab {["gallery-tab"]} (Some "kitchen")]
    [Gallery.mkItem (Some "kitchen") None None;
     Gallery.mkItem (Some "bath") None None]).
  assert (H : Gallery.tabs g !! 1%nat
              = Some (Gallery.mkTab {["gallery-tab"]} (Some "kitchen")))
    by reflexivity.
  split; [exact H|].
  exact (proj2 (proj2 (proj2 (gallery_filter g 1 _ H)))).
Defined.

(** ** The navigation bar *)

Lemma navbar_step_icon (s : Navbar.t) (e : Navbar.event) :
  icon_matches_menu s → icon_matches_menu (Navbar.step s e).
Proof.
  intros [H1 H2]. destruct e as [y| |]; cbn [Navbar.step].
  - by destruct (Qle_bool y 50).
  - unfold icon_matches_menu, ClassList.toggle, ClassList.contains.
    cbn [Navbar.navLinks Navbar.icon].
    destruct (decide ("active" ∈ Navbar.navLinks s)) as [Ha|Ha];
      destruct (decide ("fa-bars" ∈ Navbar.icon s)) as [Hb|Hb];
      destruct (decide ("fa-times" ∈ Navbar.icon s)) as [Ht|Ht];
      try tauto.
    + rewrite (bool_decide_eq_true_2 _ Ha), (bool_decide_eq_false_2 _ Hb).
      unfold ClassList.add, ClassList.remove.
      rewrite bool_decide_eq_true_2 by set_solver. set_solver.
    + rewrite (bool_decide_eq_false_2 _ Ha), (bool_decide_eq_true_2 _ Hb).
      unfold ClassList.add, ClassList.remove.
      rewrite bool_decide_eq_false_2 by set_solver. set_solver.
  - unfold icon_matches_menu, ClassList.add, ClassList.remove.
    cbn [Navbar.navLinks Navbar.icon]. set_solver.
Qed.

(** If the menu is open exactly when the icon is the cross, and the icon
    is either the bars or the cross, this stays so whatever is clicked
    or scrolled; and once the page has scrolled, the bar has the class
    [scrolled] exactly when the last position is beyond 50. *)
Theorem navbar_icon_and_scroll (s : Navbar.t) (es : list Navbar.event) :
  icon_matches_menu s →
  icon_matches_menu (Navbar.run es s) ∧
  ∀ y, last_scroll es None = Some y →
       ("scrolled" ∈ Navbar.navbar (Navbar.run es s) ↔ (50 < y)%Q).
Proof.
  intros Hs. split.
  - revert s Hs. induction es as [|e es IH]; intros s Hs; [done|].
    cbn [Navbar.run fold_left]. by apply IH, navbar_step_icon.
  - assert (H : ∀ s o,
      (∀ y, o = Some y → ("scrolled" ∈ Navbar.navbar s ↔ (50 < y)%Q)) →
      ∀ y, last_scroll es o = Some y →
           ("scrolled" ∈ Navbar.navbar (Navbar.run es s) ↔ (50 < y)%Q)).
    { clear. induction es as [|e es IH]; intros s o Ho y Hy; [by apply Ho|].
      cbn [Navbar.run fold_left].
      destruct e as [y'| |]; cbn [last_scroll] in Hy.
      - apply (IH _ (Some y')); [|done]. intros ? [= <-].
        cbn [Navbar.step]. destruct (Qle_bool y' 50) eqn:Hle;
          cbn [Navbar.navbar]; unfold ClassList.add, ClassList.remove.
        + apply Qle_bool_iff in Hle. split; [set_solver|lra].
        + assert (¬ (y' <= 50)%Q) by (rewrite <- Qle_bool_iff; congruence).
          split; [lra|set_solver].
      - by apply (IH _ o).
      - by apply (IH _ o). }
    by apply (H s None).
Qed.

Lemma navbar_icon_and_scroll_witness :
  let s := Navbar.mk {["navbar"]} {["nav-links"]} {["fas"; "fa-bars"]} in
  icon_matches_menu s ∧
  icon_matches_menu
    (Navbar.run [Navbar.ToggleClick; Navbar.Scroll 120; Navbar.LinkClick] s).
Proof.
  assert (H : icon_matches_menu
    (Navbar.mk {["navbar"]} {["nav-links"]} {["fas"; "fa-bars"]})).
  { split; cbn; split; intros H; try (by vm_compute in H);
      apply (bool_decide_unpack _) ; by vm_compute. }
  split; [exact H|].
  exact (proj1 (navbar_icon_and_scroll _
           [Navbar.ToggleClick; Navbar.Scroll 120; Navbar.LinkClick] H)).
Defined.

(** ** The articles shown *)

Lemma articles_slice0_take {A} (a : list A) (e : value) :
  let n := Articles.ToIntegerOrInfinity e in
  Articles.slice0 a e =
    if (n <? 0)%Z then take (length a - Z.to_nat (- n)) a
    else take (Z.to_nat n) a.
Proof.
  cbv zeta. unfold Articles.slice0.
  destruct (Z.ltb_spec (Articles.ToIntegerOrInfinity e) 0).
  - f_equal. lia.
  - destruct (Z.le_gt_cases (Articles.ToIntegerOrInfinity e)
                (Z.of_nat (length a))).
    + f_equal. lia.
    + rewrite !take_ge by lia. done.
Qed.

Lemma articles_get_array (o : Articles.db) (k : string)
    (a : list Articles.article) :
  Articles.get o k = Articles.Array a ↔ Articles.own_array o k = Some a.
Proof.
  unfold Articles.get. destruct (Articles.own_array o k).
  - split; congruence.
  - case_bool_decide; split; congruence.
Qed.

Lemma articles_get_missing (o : Articles.db) (k : string) :
  Articles.get o k = Articles.Missing ↔
  Articles.own_array o k = None ∧ k ∉ Articles.inherited.
Proof.
  unfold Articles.get. destruct (Articles.own_array o k).
  - split; [congruence|]. by intros [? _].
  - case_bool_decide; split; try congruence; try done. by intros [_ ?].
Qed.

(** The cards rendered are the first articles of the list of the
    category, or of [default] when the object has no such category, in
    their order: as many as the limit says (4 when it is left out, none
    when it is [NaN] or between -1 and 1), and for a negative limit all
    but that many at the end. *)
Theorem articles_shown (o : Articles.db) (category : option string)
    (limit : value) (shown : list Articles.article) :
  Articles.articlesToShow o category limit = Some shown →
  let key := default "default" category in
  let n := Articles.ToIntegerOrInfinity (Articles.limit_or_default limit) in
  ∃ all,
    (Articles.own_array o key = Some all ∨
     (Articles.own_array o key = None ∧
      Articles.own_array o "default" = Some all)) ∧
    shown `prefix_of` all ∧
    ((0 <= n)%Z → length shown = (Z.to_nat n `min` length all)%nat) ∧
    ((n < 0)%Z → length shown = (length all - Z.to_nat (- n))%nat).
Proof.
  unfold Articles.articlesToShow. cbv zeta. intros H.
  assert (Hcut : ∀ all,
    Articles.slice0 all (Articles.limit_or_default limit) = shown →
    shown `prefix_of` all ∧
    ((0 <= Articles.ToIntegerOrInfinity (Articles.limit_or_default limit))%Z →
     length shown =
       (Z.to_nat (Articles.ToIntegerOrInfinity
                    (Articles.limit_or_default limit)) `min` length all)%nat) ∧
    ((Articles.ToIntegerOrInfinity (Articles.limit_or_default limit) < 0)%Z →
     length shown =
       (length all - Z.to_nat (- Articles.ToIntegerOrInfinity
                                   (Articles.limit_or_default limit)))%nat)).
  { intros all <-. rewrite articles_slice0_take. cbv zeta.
    destruct (Z.ltb_spec (Articles.ToIntegerOrInfinity
                            (Articles.limit_or_default limit)) 0);
      (split; [apply prefix_take|]); rewrite length_take; split; lia. }
  destruct (Articles.get o (default "default" category)) as [all| |] eqn:Hk.
  - injection H as H. exists all. split; [|by apply Hcut].
    left. by apply articles_get_array.
  - done.
  - destruct (Articles.get o "default") as [all| |] eqn:Hd; [|done|done].
    injection H as H. exists all. split; [|by apply Hcut].
    right. split; [by apply articles_get_missing|by apply articles_get_array].
Qed.

Lemma articles_shown_witness :
  Articles.articlesToShow Articles.ARTICLES_DB (Some "journey") (Num (-1))
    = Some [Articles.article_genesis_day; Articles.article_the_transformation]
  ∧ ∃ all,
      (Articles.own_array Articles.ARTICLES_DB "journey" = Some all ∨
       (Articles.own_array Articles.ARTICLES_DB "journey" = None ∧
        Articles.own_array Articles.ARTICLES_DB "default" = Some all)) ∧
      [Articles.article_genesis_day; Articles.article_the_transformation]
        `prefix_of` all.
Proof.
  assert (H : Articles.articlesToShow Articles.ARTICLES_DB (Some "journey")
                (Num (-1))
              = Some [Articles.article_genesis_day;
                      Articles.article_the_transformation])
    by (vm_compute; reflexivity).
  split; [exact H|].
  destruct (articles_shown _ _ _ _ H) as (all & Hall & Hpre & _).
  exists all. split; [exact Hall | exact Hpre].
Defined.

(** A category that names a property every object inherits, such as
    [constructor] or [toString], is not replaced by [default]: what the
    object gives for it is truthy and has no [slice], and when the
    container is there the call ends in a [TypeError]; when it is not,
    the call returns before it looks at the category. *)
Theorem articles_inherited_category_throws (o : Articles.db)
    (ids : gset string) (containerId category : string) (limit : value) :
  category ∈ Articles.inherited →
  Articles.own_array o category = None →
  Articles.renderArticles o ids containerId (Some category) limit
    = if bool_decide (containerId ∈ ids) then Articles.TypeError
      else Articles.Returns None.
Proof.
  intros Hin Hown.
  unfold Articles.renderArticles, Articles.articlesToShow.
  case_bool_decide; [|done]. cbv zeta.
  change (default "default" (Some category)) with category.
  unfold Articles.get at 1. rewrite Hown.
  by rewrite bool_decide_eq_true_2.
Qed.

Lemma articles_inherited_category_throws_witness :
  "constructor" ∈ Articles.inherited ∧
  Articles.own_array Articles.ARTICLES_DB "default" ≠ None ∧
  Articles.renderArticles Articles.ARTICLES_DB {["dynamic-articles"]}
    "dynamic-articles" (Some "constructor") Undefined
    = Articles.TypeError.
Proof.
  assert (Hin : "constructor" ∈ Articles.inherited)
    by (apply (bool_decide_unpack _); vm_compute; exact I).
  assert (Hown : Articles.own_array Articles.ARTICLES_DB "constructor" = None)
    by reflexivity.
  split; [exact Hin|]. split; [discriminate|].
  rewrite (articles_inherited_category_throws Articles.ARTICLES_DB
             {["dynamic-articles"]} "dynamic-articles" "constructor"
             Undefined Hin Hown).
  rewrite bool_decide_eq_true_2; [reflexivity|].
  apply elem_of_singleton. reflexivity.
Defined.

Lemma articles_own_array_elem (o : Articles.db) (k : string)
    (l : list Articles.article) :
  Articles.own_array o k = Some l → l ∈ map snd o.
Proof.
  induction o as [|[k' v] o IH]; simpl; [done|].
  destruct (String.eqb k k').
  - intros [= ->]. left.
  - intros H. right. by apply IH.
Qed.

(** With [ARTICLES_DB] as it is, the default limit of 4 cuts no list
    short: for a category that is not an inherited name, every article
    of its list, or of [default], gets a card. *)
Theorem articles_default_limit_shows_all (category : option string) :
  default "default" category ∉ Articles.inherited →
  ∃ all,
    Articles.articlesToShow Articles.ARTICLES_DB category Undefined
      = Some all ∧
    (Articles.own_array Articles.ARTICLES_DB (default "default" category)
       = Some all ∨
     (Articles.own_array Articles.ARTICLES_DB (default "default" category)
        = None ∧
      Articles.own_array Articles.ARTICLES_DB "default" = Some all)).
Proof.
  intros Hni.
  assert (Hlen : Forall (λ l : list Articles.article, (length l <= 4)%nat)
                   (map snd Articles.ARTICLES_DB))
    by (repeat constructor).
  rewrite Forall_forall in Hlen.
  assert (Hall : ∀ all, all ∈ map snd Articles.ARTICLES_DB →
                        Articles.slice0 all (Num 4) = all).
  { intros all Hin. apply Hlen in Hin. rewrite articles_slice0_take. cbv zeta.
    change (Articles.ToIntegerOrInfinity (Num 4)) with 4%Z.
    change (4 <? 0)%Z with false. cbv iota. apply take_ge. lia. }
  unfold Articles.articlesToShow. cbn [Articles.limit_or_default].
  destruct (Articles.own_array Articles.ARTICLES_DB
              (default "default" category)) as [all|] eqn:Hk.
  - exists all. split; [|by left].
    rewrite (proj2 (articles_get_array _ _ _) Hk).
    by rewrite (Hall all (articles_own_array_elem _ _ _ Hk)).
  - rewrite (proj2 (articles_get_missing _ _) (conj Hk Hni)).
    exists (Articles.slice0 [Articles.article_genesis_day;
       Articles.article_ai_trends_report;
       Articles.article_build_your_ai_powerhouse;
       Articles.article_the_transformation] (Num 4)).
    split; [reflexivity|]. right. split; [done|reflexivity].
Qed.

Lemma articles_default_limit_shows_all_witness :
  (default "default" (Some "recipes") ∉ Articles.inherited) ∧
  Articles.articlesToShow Articles.ARTICLES_DB (Some "recipes") Undefined
    = Articles.own_array Articles.ARTICLES_DB "default".
Proof.
  assert (Hni : default "default" (Some "recipes") ∉ Articles.inherited)
    by (apply (bool_decide_unpack _); vm_compute; exact I).
  split; [exact Hni|].
  destruct (articles_default_limit_shows_all (Some "recipes") Hni)
    as (all & -> & [Hk | [_ Hd]]).
  - discriminate Hk.
  - symmetry. exact Hd.
Defined.

(** ** The counters *)

Lemma hero_ticks_S (k : nat) (s : HeroStats.t) :
  HeroStats.ticks (S k) s = HeroStats.tick (HeroStats.ticks k s).
Proof. reflexivity. Qed.

Lemma hero_running (data_count : option string) (t : Q) (k : nat) :
  (0 < t)%Q → (k < 125)%nat →
  let s := HeroStats.ticks k (HeroStats.start data_count (Num t)) in
  HeroStats.timer s = true ∧
  HeroStats.target s = Num t ∧ HeroStats.data_count s = data_count ∧
  ∃ q, HeroStats.current s = Num q ∧
       (q == inject_Z (Z.of_nat k) * t / 125)%Q ∧
       (k = 0%nat → HeroStats.textContent s = None) ∧
       ((1 <= k)%nat →
        HeroStats.textContent s = Some (Num (inject_Z (Qfloor q)), "")).
Proof.
  intros Ht. induction k as [|k IH]; intros Hk.
  - cbv zeta. unfold HeroStats.ticks, HeroStats.start. cbn [Nat.iter].
    cbn [HeroStats.timer HeroStats.target HeroStats.data_count
         HeroStats.current HeroStats.textContent].
    split; [done|]. split; [done|]. split; [done|].
    exists 0%Q. split; [done|]. split; [|split; [done|lia]].
    change (inject_Z (Z.of_nat 0)) with 0%Q. field.
  - destruct IH as (Htm & Htg & Hdc & q & Hc & Hq & _); [lia|].
    cbv zeta. rewrite hero_ticks_S.
    set (s := HeroStats.ticks k (HeroStats.start data_count (Num t))) in *.
    unfold HeroStats.tick. rewrite Htm, Htg, Hc.
    cbn [arith add ToNumber HeroStats.ge].
    set (q' := (q + t / (2000 / 16))%Q).
    assert (Hq' : (q' == inject_Z (Z.of_nat (S k)) * t / 125)%Q).
    { unfold q'. rewrite Hq, Nat2Z.inj_succ. unfold Z.succ.
      rewrite inject_Z_plus. change (inject_Z 1) with 1%Q. field. }
    assert (Hlt : (q' < t)%Q).
    { rewrite Hq'.
      assert (Hk' : (inject_Z (Z.of_nat (S k)) <= 124)%Q).
      { change 124%Q with (inject_Z 124). rewrite <- Zle_Qle. lia. }
      apply Qlt_shift_div_r; [reflexivity|]. nra. }
    assert (Hge : Qle_bool t q' = false).
    { destruct (Qle_bool t q') eqn:H; [|done].
      apply Qle_bool_iff in H. lra. }
    rewrite Hge.
    cbn [HeroStats.timer HeroStats.target HeroStats.data_count
         HeroStats.current HeroStats.textContent HeroStats.Math_floor
         ToNumber].
    split; [done|]. split; [done|]. split; [done|].
    exists q'. split; [done|]. split; [done|]. split; [lia|done].
Qed.

Lemma hero_done (data_count : option string) (t : Q) (k : nat) :
  (0 < t)%Q → (125 <= k)%nat →
  let s := HeroStats.ticks k (HeroStats.start data_count (Num t)) in
  HeroStats.timer s = false ∧
  HeroStats.textContent s = Some (Num t, suffix data_count).
Proof.
  intros Ht Hk. cbv zeta.
  induction k as [|k IH]; [lia|].
  rewrite hero_ticks_S.
  destruct (decide (k = 124%nat)) as [->|Hne].
  - destruct (hero_running data_count t 124 Ht) as
      (Htm & Htg & Hdc & q & Hc & Hq & _); [lia|].
    unfold HeroStats.tick. rewrite Htm, Htg, Hc, Hdc.
    cbn [arith add ToNumber HeroStats.ge].
    assert (Hge : Qle_bool t (q + t / (2000 / 16)) = true).
    { apply Qle_bool_iff. rewrite Hq.
      change (inject_Z (Z.of_nat 124)) with 124%Q.
      assert (H : (124 * t / 125 + t / (2000 / 16) == t)%Q) by field.
      rewrite H. lra. }
    rewrite Hge. done.
  - destruct IH as [Htm Htx]; [lia|].
    unfold HeroStats.tick. rewrite Htm. done.
Qed.

(** A counter with a target above zero shows, while it runs, whole
    numbers from 0 up that stay below the target, and then stops on the
    target itself, with ['%'] after it when [data-count] is ['98'] and
    ['+'] otherwise. *)
Theorem hero_counts_up (data_count : option string) (t : Q) :
  (0 < t)%Q →
  (∀ k, let s := HeroStats.ticks k (HeroStats.start data_count (Num t)) in
        match HeroStats.textContent s with
        | None => k = 0%nat
        | Some (v, after) =>
            if HeroStats.timer s
            then ∃ z : Z, v = Num (inject_Z z) ∧ (0 <= z)%Z ∧
                          (inject_Z z < t)%Q ∧ after = ""
            else v = Num t ∧ after = suffix data_count
        end) ∧
  ∃ k, HeroStats.timer
         (HeroStats.ticks k (HeroStats.start data_count (Num t))) = false.
Proof.
  intros Ht. split.
  - intros k. cbv zeta. destruct (le_lt_dec 125 k) as [Hk|Hk].
    + destruct (hero_done data_count t k Ht Hk) as [-> ->]. done.
    + destruct (hero_running data_count t k Ht Hk)
        as (-> & _ & _ & q & Hc & Hq & H0 & H1).
      destruct k as [|k]; [by rewrite H0|].
      rewrite H1 by lia. exists (Qfloor q).
      assert (Hq0 : (0 <= q)%Q).
      { rewrite Hq. apply Qle_shift_div_l; [reflexivity|].
        assert ((0 <= inject_Z (Z.of_nat (S k)))%Q)
          by (change 0%Q with (inject_Z 0); rewrite <- Zle_Qle; lia).
        nra. }
      assert (Hqt : (q < t)%Q).
      { rewrite Hq.
        assert (Hk' : (inject_Z (Z.of_nat (S k)) <= 124)%Q).
        { change 124%Q with (inject_Z 124). rewrite <- Zle_Qle. lia. }
        apply Qlt_shift_div_r; [reflexivity|]. nra. }
      split; [done|]. split; [|split; [|done]].
      * change 0%Z with (Qfloor 0). by apply Qfloor_resp_le.
      * pose proof (Qfloor_le q). lra.
  - exists 125%nat. by destruct (hero_done data_count t 125 Ht).
Qed.

Lemma hero_counts_up_witness :
  (0 < 98)%Q ∧
  ∃ k, HeroStats.timer
         (HeroStats.ticks k (HeroStats.start (Some "98") (Num 98))) = false.
Proof.
  assert (H : (0 < 98)%Q) by reflexivity.
  split; [exact H|].
  exact (proj2 (hero_counts_up (Some "98") 98 H)).
Defined.

(** A counter whose [data-count] does not parse, so that its target is
    [NaN], never stops: every tick writes [NaN] and leaves the interval
    set.  A counter whose target is zero or less stops at its first
    tick. *)
Theorem hero_edge_targets (data_count : option string) :
  (∀ k, (1 <= k)%nat →
        let s := HeroStats.ticks k (HeroStats.start data_count NaN) in
        HeroStats.timer s = true ∧
        HeroStats.textContent s = Some (NaN, "")) ∧
  (∀ t : Q, (t <= 0)%Q →
        let s := HeroStats.ticks 1 (HeroStats.start data_count (Num t)) in
        HeroStats.timer s = false ∧
        HeroStats.textContent s = Some (Num t, suffix data_count)).
Proof.
  split.
  - intros k Hk. cbv zeta.
    assert (H : ∀ k,
      let s := HeroStats.ticks (S k) (HeroStats.start data_count NaN) in
      HeroStats.timer s = true ∧ HeroStats.target s = NaN ∧
      HeroStats.current s = NaN ∧
      HeroStats.textContent s = Some (NaN, "")).
    { clear. induction k as [|k IH]; [by cbn|].
      cbv zeta in *. destruct IH as (Htm & Htg & Hc & Htx).
      rewrite (hero_ticks_S (S k)).
      unfold HeroStats.tick. rewrite Htm, Htg, Hc. by cbn. }
    destruct k as [|k]; [lia|]. destruct (H k) as (? & _ & _ & ?). done.
  - intros t Ht. cbv zeta. rewrite hero_ticks_S.
    change (HeroStats.ticks 0 ?s) with s.
    unfold HeroStats.tick, HeroStats.start.
    cbn [HeroStats.timer HeroStats.target HeroStats.current
         HeroStats.data_count arith add ToNumber HeroStats.ge].
    assert (Hge : Qle_bool t (0 + t / (2000 / 16)) = true).
    { apply Qle_bool_iff.
      assert (H : (0 + t / (2000 / 16) == t / 125)%Q) by field.
      rewrite H. apply Qle_shift_div_l; [reflexivity|]. lra. }
    rewrite Hge. done.
Qed.

Lemma hero_edge_targets_witness :
  (1 <= 3)%nat ∧ (0 <= 0)%Q ∧
  HeroStats.timer (HeroStats.ticks 3 (HeroStats.start None NaN)) = true ∧
  HeroStats.timer (HeroStats.ticks 1 (HeroStats.start None (Num 0))) = false.
Proof.
  assert (H : (1 <= 3)%nat) by lia.
  assert (H' : (0 <= 0)%Q) by (apply Qle_bool_imp_le; reflexivity).
  split; [exact H|]. split; [exact H'|]. split.
  - exact (proj1 (proj1 (hero_edge_targets None) 3%nat H)).
  - exact (proj1 (proj2 (hero_edge_targets None) 0%Q H')).
Defined.

(** ** Initialisation of the page *)

(** The pricing calculator is initialised exactly when nothing before it
    throws: the page has the menu toggle, each slider its handle, and
    the carousel, if its track and buttons are there, its dots container
    and at least one card; and the calculator its own elements.  One
    testimonial section without cards leaves the calculator dead. *)
Theorem page_calculator_initialised (p : Page.t) :
  "initPricingCalculator" ∈ Page.DOMContentLoaded p ↔
  Page.has_mobileToggle p = true ∧
  (∀ h, h ∈ Page.slider_handles p → h = true) ∧
  (∀ c, Page.carousel p = Some c →
        Page.has_dotsContainer c = true ∧ (1 <= Page.cards c)%nat) ∧
  Page.has_calculator p = true.
Proof.
  unfold Page.DOMContentLoaded, Page.initialisers.
  cbn [Page.completed].
  assert (Hsl : forallb id (Page.slider_handles p) = true ↔
                ∀ h, h ∈ Page.slider_handles p → h = true).
  { rewrite forallb_forall. split; intros H h Hh; apply H;
      by apply list_elem_of_In. }
  assert (Hca : Page.initTestimonialCarousel p = true ↔
                ∀ c, Page.carousel p = Some c →
                     Page.has_dotsContainer c = true ∧
                     (1 <= Page.cards c)%nat).
  { unfold Page.initTestimonialCarousel.
    destruct (Page.carousel p) as [c|]; [|split; [done|done]].
    split.
    - intros [Hd Hi]%andb_true_iff c' [= <-]. split; [done|].
      destruct (Page.cards c); [discriminate|lia].
    - intros H. destruct (H c eq_refl) as [-> Hn].
      destruct (Page.cards c); [lia|done]. }
  destruct (Page.has_mobileToggle p); [|split; [by intros ?%elem_of_nil|
    by intros [? _]]].
  destruct (forallb id (Page.slider_handles p)) eqn:Hs.
  2:{ split.
      - intros H. repeat (apply elem_of_cons in H as [H|H]; [done|]).
        by apply elem_of_nil in H.
      - intros (_ & H & _). apply Hsl in H. done. }
  destruct (Page.initTestimonialCarousel p) eqn:Hc.
  2:{ split.
      - intros H. repeat (apply elem_of_cons in H as [H|H]; [done|]).
        by apply elem_of_nil in H.
      - intros (_ & _ & H & _). apply Hca in H. done. }
  destruct (Page.has_calculator p).
  - split.
    + intros _. split; [done|]. split; [by apply Hsl|].
      split; [by apply Hca|done].
    + intros _. do 4 right. left.
  - split.
    + intros H. repeat (apply elem_of_cons in H as [H|H]; [done|]).
      by apply elem_of_nil in H.
    + by intros (_ & _ & _ & ?).
Qed.

Lemma page_calculator_initialised_witness :
  Page.has_mobileToggle page_complete = true ∧
  Page.has_calculator page_complete = true ∧
  "initPricingCalculator" ∈ Page.DOMContentLoaded page_complete.
Proof.
  split; [reflexivity|]. split; [reflexivity|].
  apply (proj2 (page_calculator_initialised page_complete)).
  split; [reflexivity|]. split; [|split; [|reflexivity]].
  - intros h Hh. apply elem_of_cons in Hh as [Hh|Hh]; [exact Hh|].
    by apply elem_of_nil in Hh.
  - intros c Hc. injection Hc as <-. split; [reflexivity|]. cbn. lia.
Defined.
